(** * TeamCity service-message output of cppcheck

    A shallow embedding of [cli/teamcityoutput.cpp] (class [TeamCityOutput])
    and the properties of its escaping function, its two message formatters
    and its reporting operations.

    [std::string] is [string]; [std::set<std::string>] is [gset string];
    [std::map<std::string, std::string>] is [gmap string string] together
    with its in-order traversal [map_items]; the static stream [output] is
    the text written to it so far. *)

From Stdlib Require Import Ascii String ZArith DecimalString.
From Stdlib Require DecimalZ DecimalPos.
From stdpp Require Import gmap strings list sorting.
From Equations Require Import Equations.
From Equations.Prop Require Import Logic.

#[local] Arguments String.append !_ _ / : simpl nomatch.

(** ** [std::string] operations used by the source *)

Module StdString.

(** Membership of a character in a C string constant. *)
Fixpoint mem (c : ascii) (chars : string) : bool :=
  match chars with
  | EmptyString => false
  | String d chars' => if Ascii.eqb c d then true else mem c chars'
  end.

(** [s.find_first_of(chars, pos)]; [None] is [std::string::npos]. *)
Fixpoint find_first_of (chars : string) (pos : nat) (s : string) : option nat :=
  match s with
  | EmptyString => None
  | String c s' =>
      match pos with
      | O => if mem c chars then Some O
             else option_map S (find_first_of chars O s')
      | S pos' => option_map S (find_first_of chars pos' s')
      end
  end.

(** [s[pos]]; reading at or past the end is outside the source's use. *)
Definition at_ (pos : nat) (s : string) : option ascii := String.get pos s.

(** [s[pos] = c]. *)
Fixpoint assign_at (pos : nat) (c : ascii) (s : string) : string :=
  match s with
  | EmptyString => EmptyString
  | String d s' =>
      match pos with
      | O => String c s'
      | S pos' => String d (assign_at pos' c s')
      end
  end.

(** [s.insert(pos, t)] for [pos <= s.length()]. *)
Fixpoint insert (pos : nat) (t : string) (s : string) : string :=
  match pos with
  | O => t +:+ s
  | S pos' =>
      match s with
      | EmptyString => t
      | String d s' => String d (insert pos' t s')
      end
  end.

(** [s.empty()]. *)
Definition empty (s : string) : bool :=
  match s with EmptyString => true | String _ _ => false end.

End StdString.

(** ** The escaper: [TeamCityOutput::serviceMessageEscape] *)

(** The argument of [find_first_of]: quote, new line, carriage return, the
    two brackets and the pipe. *)
Definition reserved_chars : string :=
  String "'"%char (String "010"%char (String "013"%char (String "["%char (String "]"%char (String "|"%char EmptyString))))).

(** The body of the [if]/[else if] inside the loop. *)
Definition rewrite_control (pos : nat) (result : string) : string :=
  match StdString.at_ pos result with
  | Some c =>
      if Ascii.eqb c "010"%char then StdString.assign_at pos "n"%char result
      else if Ascii.eqb c "013"%char then StdString.assign_at pos "r"%char result
      else result
  | None => result
  end.

(** Bounds on the string operations, for the termination of the loop. *)

Lemma find_first_of_ge chars pos s p :
  StdString.find_first_of chars pos s = Some p → pos ≤ p < String.length s.
Proof.
  revert pos p. induction s as [|c s IH]; intros pos p; simpl; [done|].
  destruct pos as [|pos].
  - destruct (StdString.mem c chars); [intros [= <-]; lia|].
    destruct (StdString.find_first_of chars 0 s) as [q|] eqn:E; simpl; [|done].
    intros [= <-]. apply IH in E. lia.
  - destruct (StdString.find_first_of chars pos s) as [q|] eqn:E; simpl; [|done].
    intros [= <-]. apply IH in E. lia.
Qed.

Lemma length_assign_at pos c s :
  String.length (StdString.assign_at pos c s) = String.length s.
Proof.
  revert pos. induction s as [|d s IH]; intros [|pos]; simpl; auto.
Qed.

Lemma length_rewrite_control pos s :
  String.length (rewrite_control pos s) = String.length s.
Proof.
  unfold rewrite_control. destruct (StdString.at_ pos s); [|done].
  repeat case_match; auto using length_assign_at.
Qed.

Lemma length_insert_pipe pos s :
  pos ≤ String.length s →
  String.length (StdString.insert pos "|" s) = S (String.length s).
Proof.
  revert s. induction pos as [|pos IH]; intros s; simpl; [done|].
  destruct s as [|d s]; simpl; [lia|]. intros ?. rewrite IH; lia.
Qed.

(** The [while] loop of [serviceMessageEscape], on the pair of the local
    variables [result] and [pos].  Each turn moves [pos] at least two
    characters forward in a string that grew by one, so the distance from
    [pos] to the end of [result] decreases. *)
Equations? escape_loop (result : string) (pos : nat) : string
  by wf (String.length result - pos) lt :=
  escape_loop result pos with inspect (pos <? String.length result)%nat := {
    | exist _ false _ => result
    | exist _ true Hlt with inspect (StdString.find_first_of reserved_chars pos result) := {
        | exist _ None _ => result
        | exist _ (Some pos') Hfind =>
            escape_loop
              (StdString.insert pos' "|" (rewrite_control pos' result))
              (pos' + 2) } }.
Proof.
  apply find_first_of_ge in Hfind.
  rewrite length_insert_pipe, length_rewrite_control
    by (rewrite length_rewrite_control; lia).
  lia.
Qed.

Definition serviceMessageEscape (str : string) : string :=
  escape_loop str 0.

(** ** The formatter: the two overloads of [formatServiceMessage] *)

(** [std::map<std::string, std::string>] is a finite map whose iterators
    visit the entries in increasing key order, [std::less<std::string>]
    being the byte-wise lexicographic order [String.le]. *)
Definition key_le (a b : string * string) : Prop := String.le a.1 b.1.

#[global] Instance key_le_dec : RelDecision key_le.
Proof. intros a b. unfold key_le. apply _. Defined.

(** The sequence a range-based [for] over the map goes through. *)
Definition map_items (values : gmap string string) : list (string * string) :=
  merge_sort key_le (map_to_list values).

(** The line feed character written after each message. *)
Definition newline : string := String "010"%char EmptyString.

(** What one turn of the [for] loop appends to the stream [ss]. *)
Definition put_attribute (ss : string) (value : string * string) : string :=
  ss +:+ " " +:+ value.1 +:+ "='" +:+ serviceMessageEscape value.2 +:+ "'".

(** [formatServiceMessage(messageName, values)], the map overload. *)
Definition formatServiceMessage_map
    (messageName : string) (values : gmap string string) : string :=
  let ss := "##teamcity[" +:+ messageName in
  let ss := foldl put_attribute ss (map_items values) in
  ss +:+ "]".

(** [formatServiceMessage(messageName, value)], the single-value overload. *)
Definition formatServiceMessage (messageName value : string) : string :=
  "##teamcity[" +:+ messageName +:+ " '" +:+ serviceMessageEscape value +:+ "']".

(** ** The data the sink reads *)

Module Severity.
(** Modelled from the spec: the enumeration [Severity::SeverityType], whose
    declaration is in [errorlogger.h]; its enumerators are the eight case
    labels of the [switch] in [reportErr].  [unrecognized] stands for an
    integer value that is none of the enumerators, which that [switch] sends
    to its [default] label. *)
Inductive SeverityType :=
| none | error | warning | style | performance | portability
| information | debug
| unrecognized (raw : Z).
End Severity.

(** Modelled from the spec: the class [Settings], declared in [settings.h],
    as far as the sink reads it: the verbose flag and the list of base
    directories. *)
Record Settings := {
  verbose : bool;
  basePaths : list string
}.

(** Modelled from the spec: the class [ErrorMessage::FileLocation],
    declared in [errorlogger.h], as a location frame of a file, a line and
    a column: what [getfile()], [line] and [col] give.  The two numbers are
    integers, of either signedness. *)
Record FileLocation := {
  getfile : string;
  line : Z;
  col : Z
}.

(** Modelled from the spec: the class [ErrorLogger::ErrorMessage], declared
    in [errorlogger.h], as the members and accessors [reportErr] reads: the
    identity, the short and the verbose message, the location frames, the
    fallback file, the weakness code ([_cwe_id] is [_cwe.id]), the
    inconclusive flag and the severity. *)
Record ErrorMessage := {
  _id : string;
  shortMessage : string;
  verboseMessage : string;
  _callStack : list FileLocation;
  file0 : string;
  _cwe_id : Z;
  _inconclusive : bool;
  _severity : Severity.SeverityType
}.

(** [std::to_string] on an integer: its decimal numeral. *)
Definition to_string (z : Z) : string := NilZero.string_of_int (Z.to_int z).

(** [values[key]] read as a value: the entry, created empty when absent. *)
Definition subscript (key : string) (values : gmap string string)
    : string * gmap string string :=
  match values !! key with
  | Some v => (v, values)
  | None => ("", <[key := ""]> values)
  end.

(** [set.insert(x)]: the set afterwards and the [.second] of the result,
    true when [x] was not there yet. *)
Definition set_insert (x : string) (s : gset string) : gset string * bool :=
  ({[x]} ∪ s, bool_decide (x ∉ s)).

(** ** The sink: [TeamCityOutput] *)

Record TeamCityOutput := {
  _settings : Settings;
  _latestProgressFile : string;
  _latestProgressStage : string;
  _errorList : gset string
}.

(** The constructor: the string and set members start empty. *)
Definition TeamCityOutput_new (settings : Settings) : TeamCityOutput :=
  {| _settings := settings;
     _latestProgressFile := "";
     _latestProgressStage := "";
     _errorList := ∅ |}.

(** [reportOut]: one [message] line, unconditionally.  The second component
    is the static stream [output]. *)
Definition reportOut (outmsg : string) (self : TeamCityOutput) (output : string)
    : TeamCityOutput * string :=
  (self, output +:+ formatServiceMessage_map "message" {[ "text" := outmsg ]} +:+ newline).

(** [reportProgress]; [value] is the unnamed third parameter. *)
Definition reportProgress (filename stage : string) (value : N)
    (self : TeamCityOutput) (output : string) : TeamCityOutput * string :=
  if String.eqb (_latestProgressFile self) filename
     && String.eqb (_latestProgressStage self) stage
  then (self, output)
  else
    let self := {| _settings := _settings self;
                   _latestProgressFile := filename;
                   _latestProgressStage := stage;
                   _errorList := _errorList self |} in
    let ss := "inspecting '" +:+ filename +:+ "' stage: " +:+ stage in
    (self, output +:+ formatServiceMessage "progressMessage" ss +:+ newline).

(** Functions of the library that [reportErr] calls and whose code is in
    other files: [ErrorMessage::serialize] and three functions of [Path]. *)
Record LibFunctions := {
  serialize : ErrorMessage → string;
  fromNativeSeparators : string → string;
  isAbsolute : string → bool;
  getRelativePath : string → list string → string
}.

Section Reporting.

(** The library functions the sink is linked with. *)
Variable lib : LibFunctions.

(** The map [values] after the assignments that copy the message. *)
Definition reportErr_attributes (settings : Settings) (msg : ErrorMessage)
    : gmap string string :=
  let values : gmap string string := ∅ in
  let values := <["typeId" := _id msg]> values in
  let values :=
    <["message" := if verbose settings then verboseMessage msg
                   else shortMessage msg]> values in
  let values :=
    match _callStack msg with
    | [] => <["file" := file0 msg]> values
    | stackEntry :: _ =>
        let values := <["file" := getfile stackEntry]> values in
        let values := <["line" := to_string (line stackEntry)]> values in
        <["column" := to_string (col stackEntry)]> values
    end in
  let values :=
    if (_cwe_id msg =? 0)%Z then values
    else <["cwe" := to_string (_cwe_id msg)]> values in
  if _inconclusive msg then <["inconclusive" := "true"]> values
  else values.

(** The [if] on [values["file"].empty()] and its two branches. *)
Definition reportErr_file (settings : Settings) (values : gmap string string)
    : gmap string string :=
  let '(file, values) := subscript "file" values in
  if StdString.empty file then
    <["file" := "<cppcheck>"]> values
  else
    let '(file, values) := subscript "file" values in
    let values := <["file" := fromNativeSeparators lib file]> values in
    let '(file, values) := subscript "file" values in
    let values :=
      if isAbsolute lib file then
        let '(file, values) := subscript "file" values in
        <["file" := getRelativePath lib file (basePaths settings)]> values
      else values in
    let '(file, values) := subscript "file" values in
    <["file" := "./" +:+ file]> values.

(** The [switch] on the severity. *)
Definition reportErr_severity (sev : Severity.SeverityType)
    (values : gmap string string) : gmap string string :=
  match sev with
  | Severity.error => <["SEVERITY" := "ERROR"]> values
  | Severity.warning => <["SEVERITY" := "WARNING"]> values
  | Severity.information | Severity.debug | Severity.style =>
      <["SEVERITY" := "INFO"]> values
  | Severity.performance | Severity.portability =>
      <["SEVERITY" := "WEAK WARNING"]> values
  | Severity.none | Severity.unrecognized _ => values
  end.

(** The whole attribute map of one inspection. *)
Definition reportErr_values (settings : Settings) (msg : ErrorMessage)
    : gmap string string :=
  reportErr_severity (_severity msg)
    (reportErr_file settings (reportErr_attributes settings msg)).

Definition reportErr (msg : ErrorMessage) (self : TeamCityOutput)
    (output : string) : TeamCityOutput * string :=
  let serializedMsg := serialize lib msg in
  let '(errorList, inserted) := set_insert serializedMsg (_errorList self) in
  let self := {| _settings := _settings self;
                 _latestProgressFile := _latestProgressFile self;
                 _latestProgressStage := _latestProgressStage self;
                 _errorList := errorList |} in
  if negb inserted then (self, output)
  else
    let values := reportErr_values (_settings self) msg in
    (self, output +:+ formatServiceMessage_map "inspection" values +:+ newline).

(** A run of [reportErr] calls, in order, on one sink and one stream. *)
Fixpoint reportErr_all (msgs : list ErrorMessage) (self : TeamCityOutput)
    (output : string) : TeamCityOutput * string :=
  match msgs with
  | [] => (self, output)
  | msg :: msgs' =>
      let '(self, output) := reportErr msg self output in
      reportErr_all msgs' self output
  end.

End Reporting.

(** A run of [reportProgress] calls on one sink and one stream. *)
Fixpoint reportProgress_all (calls : list (string * string * N))
    (self : TeamCityOutput) (output : string) : TeamCityOutput * string :=
  match calls with
  | [] => (self, output)
  | (filename, stage, value) :: calls' =>
      let '(self, output) := reportProgress filename stage value self output in
      reportProgress_all calls' self output
  end.

(** ** The callers: the [ErrorLogger] interface *)

(** The three calls an [ErrorLogger] receives.  All of them return [void],
    so what a caller does next never depends on the logger. *)
Inductive LoggerCall :=
| CallReportOut (outmsg : string)
| CallReportErr (msg : ErrorMessage)
| CallReportProgress (filename stage : string) (value : N).

(** A call on a [TeamCityOutput] through the interface: the override. *)
Definition TeamCityOutput_call (lib : LibFunctions) (call : LoggerCall)
    (self : TeamCityOutput) (output : string) : TeamCityOutput * string :=
  match call with
  | CallReportOut outmsg => reportOut outmsg self output
  | CallReportErr msg => reportErr lib msg self output
  | CallReportProgress filename stage value =>
      reportProgress filename stage value self output
  end.

(** The calls of a reporting pipeline, in order, on one sink and stream. *)
Fixpoint TeamCityOutput_run (lib : LibFunctions) (calls : list LoggerCall)
    (self : TeamCityOutput) (output : string) : TeamCityOutput * string :=
  match calls with
  | [] => (self, output)
  | call :: calls' =>
      let '(self, output) := TeamCityOutput_call lib call self output in
      TeamCityOutput_run lib calls' self output
  end.

(** ** The catalog: [TeamCityOutput::reportInspectionTypes] *)

(** What [reportInspectionTypes] takes from other files:
    [Severity::toString], the registered [Check] instances and the
    preprocessor.  A [getErrorMessages] function is given by the calls it
    makes on the logger it receives. *)
Record Registry := {
  Severity_toString : Severity.SeverityType → string;
  Check_instances : list (Settings → list LoggerCall);
  Preprocessor_getErrorMessages : Settings → list LoggerCall
}.

(** [reportErr] of the anonymous logger class, with its member [verbose]. *)
Definition inspectionTypeLogger_reportErr (registry : Registry)
    (verbose : bool) (msg : ErrorMessage) (output : string) : string :=
  output +:+ formatServiceMessage_map "inspectionType"
    (list_to_map
       [ ("id", _id msg);
         ("name", _id msg);
         ("description", if verbose then verboseMessage msg else shortMessage msg);
         ("category", "cppcheck " +:+ Severity_toString registry (_severity msg)) ])
    +:+ newline.

(** A call on the anonymous logger: [reportOut] has an empty body.
    Modelled from the spec: [reportProgress] is not overridden, and the
    one inherited from [ErrorLogger] (declared in [errorlogger.h]) ignores
    the call. *)
Definition inspectionTypeLogger_call (registry : Registry) (verbose : bool)
    (output : string) (call : LoggerCall) : string :=
  match call with
  | CallReportOut _ => output
  | CallReportErr msg => inspectionTypeLogger_reportErr registry verbose msg output
  | CallReportProgress _ _ _ => output
  end.

(** [reportInspectionTypes]: a [const] member function, so only the stream
    changes. *)
Definition reportInspectionTypes (registry : Registry)
    (self : TeamCityOutput) (output : string) : string :=
  let verbose := verbose (_settings self) in
  let output :=
    foldl (λ output getErrorMessages,
             foldl (inspectionTypeLogger_call registry verbose) output
               (getErrorMessages (_settings self)))
      output (Check_instances registry) in
  foldl (inspectionTypeLogger_call registry verbose) output
    (Preprocessor_getErrorMessages registry (_settings self)).

(** ** Definitions the properties are stated with *)

(** The escaping rule read off the specification: one character at a time. *)
Definition escape_char (c : ascii) : string :=
  if Ascii.eqb c "010"%char then "|n"
  else if Ascii.eqb c "013"%char then "|r"
  else if StdString.mem c reserved_chars then String "|"%char (String c EmptyString)
  else String c EmptyString.

Fixpoint escape_spec (s : string) : string :=
  match s with
  | EmptyString => EmptyString
  | String c s' => escape_char c +:+ escape_spec s'
  end.

(** The characters that may follow the escape marker in an escaped value. *)
Definition escape_codes : string := "'[]|nr".

(** An escaped value, read left to right, consists of characters outside the
    reserved set and of two-character sequences: the marker and a code. *)
Fixpoint well_escaped (s : string) : bool :=
  match s with
  | EmptyString => true
  | String c s' =>
      if Ascii.eqb c "|"%char then
        match s' with
        | EmptyString => false
        | String d s'' => StdString.mem d escape_codes && well_escaped s''
        end
      else negb (StdString.mem c reserved_chars) && well_escaped s'
  end.

(** Number of reserved characters of a string. *)
Fixpoint count_reserved (s : string) : nat :=
  match s with
  | EmptyString => 0
  | String c s' =>
      (if StdString.mem c reserved_chars then 1 else 0) + count_reserved s'
  end.

(** Number of line feeds of a text, that is of the lines it ends. *)
Fixpoint count_lines (s : string) : nat :=
  match s with
  | EmptyString => 0
  | String c s' => (if Ascii.eqb c "010"%char then 1 else 0) + count_lines s'
  end.

(** The last character of a string. *)
Fixpoint last_char (s : string) : option ascii :=
  match s with
  | EmptyString => None
  | String c EmptyString => Some c
  | String _ s' => last_char s'
  end.

(** The text of one attribute. *)
Definition attribute_text (value : string * string) : string :=
  " " +:+ value.1 +:+ "='" +:+ serviceMessageEscape value.2 +:+ "'".

(** The texts of a list, one after the other. *)
Definition flatten (pieces : list string) : string :=
  foldr String.append "" pieces.

(** Strictly increasing keys, byte-wise lexicographically. *)
Definition key_lt (a b : string * string) : Prop := String.ltb a.1 b.1 = true.

(** The keys [reportErr] can assign before the severity switch. *)
Definition location_keys : list string :=
  ["typeId"; "message"; "file"; "line"; "column"; "cwe"; "inconclusive"].

(** The file a message is reported at: the one of the first entry of the
    call stack, or [file0] when the call stack is empty. *)
Definition chosen_file (msg : ErrorMessage) : string :=
  match _callStack msg with
  | [] => file0 msg
  | stackEntry :: _ => getfile stackEntry
  end.

(** The [file] attribute as the specification words it. *)
Definition file_attribute (lib : LibFunctions) (settings : Settings)
    (file : string) : string :=
  if StdString.empty file then "<cppcheck>"
  else
    let path := fromNativeSeparators lib file in
    let path :=
      if isAbsolute lib path then getRelativePath lib path (basePaths settings)
      else path in
    "./" +:+ path.

(** The pair of the last progress report a sink remembers; a new sink
    remembers the pair of two empty strings. *)
Definition latestProgress (self : TeamCityOutput) : string * string :=
  (_latestProgressFile self, _latestProgressStage self).

(** The text of a progress report. *)
Definition progress_line (filename stage : string) : string :=
  formatServiceMessage "progressMessage"
    ("inspecting '" +:+ filename +:+ "' stage: " +:+ stage).

(** The inverse reading of an escaped value: the character after a marker
    stands for itself, [n] and [r] for the line feed and carriage return. *)
Fixpoint unescape (s : string) : string :=
  match s with
  | EmptyString => EmptyString
  | String c s' =>
      if Ascii.eqb c "|"%char then
        match s' with
        | EmptyString => EmptyString
        | String d s'' =>
            String (if Ascii.eqb d "n"%char then "010"%char
                    else if Ascii.eqb d "r"%char then "013"%char
                    else d) (unescape s'')
        end
      else String c (unescape s')
  end.

(** The serializations of the messages a list of calls reports. *)
Definition reported (lib : LibFunctions) (calls : list LoggerCall)
    : list string :=
  omap (λ call, match call with
                | CallReportErr msg => Some (serialize lib msg)
                | _ => None
                end) calls.

(** The pair of the last progress call of a list, [latest] when none. *)
Fixpoint last_progress (latest : string * string) (calls : list LoggerCall)
    : string * string :=
  match calls with
  | [] => latest
  | CallReportProgress filename stage _ :: calls' =>
      last_progress (filename, stage) calls'
  | _ :: calls' => last_progress latest calls'
  end.

(** Number of [reportErr] calls of a list. *)
Fixpoint count_reportErr (calls : list LoggerCall) : nat :=
  match calls with
  | [] => 0
  | CallReportErr _ :: calls' => S (count_reportErr calls')
  | _ :: calls' => count_reportErr calls'
  end.

(** *** Sample data to evaluate the sink on *)

Definition sample_settings : Settings :=
  {| verbose := false; basePaths := ["/proj"] |}.

(** Sample library functions: a serialization that joins the fields the
    sink reads, paths that are absolute when they start with a slash and
    are made relative by dropping the first base path. *)
Definition sample_lib : LibFunctions :=
  {| serialize msg :=
       _id msg +:+ newline +:+ shortMessage msg +:+ newline
         +:+ verboseMessage msg +:+ newline +:+ chosen_file msg;
     fromNativeSeparators file := file;
     isAbsolute file := String.prefix "/" file;
     getRelativePath file bases :=
       match bases with
       | base :: _ =>
           if String.prefix (base +:+ "/") file
           then String.substring (String.length base + 1)
                  (String.length file - (String.length base + 1)) file
           else file
       | [] => file
       end |}.

Definition sample_message : ErrorMessage :=
  {| _id := "nullPointer";
     shortMessage := "Null pointer dereference";
     verboseMessage := "Null pointer dereference: p";
     _callStack := [ {| getfile := "/proj/src/a.cpp"; line := 12; col := 5 |} ];
     file0 := "";
     _cwe_id := 476;
     _inconclusive := false;
     _severity := Severity.error |}.

(** * Properties *)

Example escape_ex1 : serviceMessageEscape "a'b" = "a|'b".
Proof. reflexivity. Qed.

Example to_string_ex : to_string 42 = "42" ∧ to_string 0 = "0".
Proof. split; reflexivity. Qed.

Example format_ex :
  formatServiceMessage_map "inspection"
    (<["typeId" := "nullPointer"]> (<["SEVERITY" := "ERROR"]> ∅))
  = "##teamcity[inspection SEVERITY='ERROR' typeId='nullPointer']".
Proof. vm_compute. reflexivity. Qed.

Example well_escaped_rejects :
  well_escaped "a'b" = false ∧ well_escaped "a|" = false
  ∧ well_escaped "a|b" = false ∧ well_escaped "a|'b|n" = true.
Proof. repeat split. Qed.

(** ** Properties of the escaper *)

Lemma escape_loop_step result pos :
  escape_loop result pos =
  if (pos <? String.length result)%nat then
    match StdString.find_first_of reserved_chars pos result with
    | None => result
    | Some pos' =>
        escape_loop (StdString.insert pos' "|" (rewrite_control pos' result)) (pos' + 2)
    end
  else result.
Proof.
  funelim (escape_loop result pos);
    repeat match goal with
    | E : (_ <? _)%nat = _ |- _ => rewrite E
    | E : StdString.find_first_of _ _ _ = _ |- _ => rewrite E
    end; reflexivity.
Qed.

(** *** Facts about the string operations at the end of a prefix *)

Lemma append_nil_r s : s +:+ "" = s.
Proof. induction s; simpl; congruence. Qed.

Lemma append_assoc s t u : (s +:+ t) +:+ u = s +:+ t +:+ u.
Proof. induction s; simpl; congruence. Qed.

(** Appends nested to the right, constants joined. *)
Ltac str_norm := repeat (progress (rewrite ?append_assoc; simpl)).

Lemma length_append s t :
  String.length (s +:+ t) = String.length s + String.length t.
Proof. induction s; simpl; congruence. Qed.

Lemma find_first_of_past chars pos s :
  String.length s ≤ pos → StdString.find_first_of chars pos s = None.
Proof.
  revert pos. induction s as [|c s IH]; intros pos; simpl; [done|].
  destruct pos as [|pos]; [lia|]. intros ?. rewrite IH by lia. done.
Qed.

Lemma find_first_of_here chars pre c rest :
  StdString.mem c chars = true →
  StdString.find_first_of chars (String.length pre) (pre +:+ String c rest)
  = Some (String.length pre).
Proof.
  intros Hc. induction pre as [|d pre IH]; simpl.
  - by rewrite Hc.
  - by rewrite IH.
Qed.

Lemma find_first_of_skip chars pre c rest :
  StdString.mem c chars = false →
  StdString.find_first_of chars (String.length pre) (pre +:+ String c rest)
  = StdString.find_first_of chars (S (String.length pre)) (pre +:+ String c rest).
Proof.
  intros Hc. induction pre as [|d pre IH]; simpl.
  - by rewrite Hc.
  - by rewrite IH.
Qed.

Lemma at_end_of_prefix pre c rest :
  StdString.at_ (String.length pre) (pre +:+ String c rest) = Some c.
Proof. unfold StdString.at_. induction pre; simpl; auto. Qed.

Lemma assign_at_end_of_prefix pre c d rest :
  StdString.assign_at (String.length pre) d (pre +:+ String c rest)
  = pre +:+ String d rest.
Proof. induction pre; simpl; congruence. Qed.

Lemma insert_end_of_prefix pre t s :
  StdString.insert (String.length pre) t (pre +:+ s) = pre +:+ t +:+ s.
Proof. induction pre; simpl; congruence. Qed.

(** What one turn of the loop does to a reserved character found right
    after the part already scanned. *)
Lemma rewrite_insert_reserved pre c rest :
  StdString.mem c reserved_chars = true →
  StdString.insert (String.length pre) "|"
    (rewrite_control (String.length pre) (pre +:+ String c rest))
  = (pre +:+ escape_char c) +:+ rest
  ∧ String.length (pre +:+ escape_char c) = String.length pre + 2.
Proof.
  intros Hc. unfold rewrite_control, escape_char.
  rewrite at_end_of_prefix, Hc.
  destruct (Ascii.eqb c "010") eqn:E1; [|destruct (Ascii.eqb c "013") eqn:E2];
    rewrite ?assign_at_end_of_prefix, insert_end_of_prefix, append_assoc,
      length_append; simpl; auto.
Qed.

(** A character outside the reserved set is stepped over. *)
Lemma escape_loop_skip pre c rest :
  StdString.mem c reserved_chars = false →
  escape_loop (pre +:+ String c rest) (String.length pre)
  = escape_loop (pre +:+ String c rest) (S (String.length pre)).
Proof.
  intros Hc.
  rewrite (escape_loop_step _ (String.length pre)),
    (escape_loop_step _ (S (String.length pre))).
  rewrite find_first_of_skip by done.
  rewrite length_append. simpl.
  destruct (Nat.ltb_spec (String.length pre) (String.length pre + S (String.length rest)));
    [|lia].
  destruct (Nat.ltb_spec (S (String.length pre)) (String.length pre + S (String.length rest)));
    [done|].
  rewrite find_first_of_past; [done|]. rewrite length_append. simpl. lia.
Qed.

Lemma escape_loop_spec rest : ∀ pre,
  escape_loop (pre +:+ rest) (String.length pre) = pre +:+ escape_spec rest.
Proof.
  induction rest as [|c rest IH]; intros pre.
  - rewrite escape_loop_step, append_nil_r, Nat.ltb_irrefl. simpl.
    by rewrite append_nil_r.
  - destruct (StdString.mem c reserved_chars) eqn:Hc.
    + rewrite escape_loop_step, length_append. simpl.
      destruct (Nat.ltb_spec (String.length pre) (String.length pre + S (String.length rest)));
        [|lia].
      rewrite find_first_of_here by done.
      destruct (rewrite_insert_reserved pre c rest Hc) as [-> Hlen].
      rewrite <- Hlen, IH, append_assoc. done.
    + rewrite escape_loop_skip by done.
      replace (pre +:+ String c rest) with ((pre +:+ String c "") +:+ rest)
        by (by rewrite append_assoc).
      replace (S (String.length pre)) with (String.length (pre +:+ String c ""))
        by (rewrite length_append; simpl; lia).
      rewrite IH, append_assoc. simpl.
      unfold escape_char. rewrite Hc.
      assert (Ascii.eqb c "010" = false) as ->.
      { apply Ascii.eqb_neq. intros ->. done. }
      assert (Ascii.eqb c "013" = false) as ->.
      { apply Ascii.eqb_neq. intros ->. done. }
      done.
Qed.

(** The loop computes the character-wise rule. *)
Lemma serviceMessageEscape_spec s :
  serviceMessageEscape s = escape_spec s.
Proof. apply (escape_loop_spec s ""). Qed.

Lemma escape_char_cases c :
  (c = "010"%char ∧ escape_char c = "|n")
  ∨ (c = "013"%char ∧ escape_char c = "|r")
  ∨ (c ≠ "010"%char ∧ c ≠ "013"%char ∧ StdString.mem c reserved_chars = true
     ∧ escape_char c = String "|"%char (String c EmptyString))
  ∨ (StdString.mem c reserved_chars = false
     ∧ escape_char c = String c EmptyString).
Proof.
  unfold escape_char.
  destruct (Ascii.eqb_spec c "010"%char) as [->|H1]; [by left|].
  destruct (Ascii.eqb_spec c "013"%char) as [->|H2]; [by right; left|].
  destruct (StdString.mem c reserved_chars) eqn:Hc;
    [right; right; left|right; right; right]; auto.
Qed.

Lemma serviceMessageEscape_cons c s :
  serviceMessageEscape (String c s) = escape_char c +:+ serviceMessageEscape s.
Proof. by rewrite !serviceMessageEscape_spec. Qed.

(** C1: [serviceMessageEscape] maps the characters of its argument one by
    one, left to right: a line feed gives [|n], a carriage return [|r], each
    of the quote, the brackets and the pipe gives the pipe and the character,
    any other character gives itself, and the scan goes on after what was
    written for a character.  The empty string gives the empty string. *)
Theorem serviceMessageEscape_char_by_char :
  serviceMessageEscape "" = ""
  ∧ (∀ s, serviceMessageEscape s = escape_spec s)
  ∧ (∀ c s,
      serviceMessageEscape (String c s) =
      (if bool_decide (c = "010"%char) then "|n"
       else if bool_decide (c = "013"%char) then "|r"
       else if bool_decide (c ∈ ["'"; "["; "]"; "|"]%char)
            then String "|"%char (String c EmptyString)
       else String c EmptyString) +:+ serviceMessageEscape s)
  ∧ serviceMessageEscape "a'b" = "a|'b"
  ∧ serviceMessageEscape (String "x"%char (String "010"%char "y")) = "x|ny"
  ∧ serviceMessageEscape "a|b" = "a||b".
Proof.
  split_and!; try reflexivity.
  - apply serviceMessageEscape_spec.
  - intros c s. rewrite serviceMessageEscape_cons. f_equal.
    unfold escape_char.
    destruct (Ascii.eqb_spec c "010"%char) as [->|H1].
    { by rewrite bool_decide_eq_true_2. }
    rewrite (bool_decide_eq_false_2 _ H1).
    destruct (Ascii.eqb_spec c "013"%char) as [->|H2].
    { by rewrite bool_decide_eq_true_2. }
    rewrite (bool_decide_eq_false_2 _ H2).
    unfold reserved_chars. simpl.
    destruct (Ascii.eqb_spec c "010"%char); [done|].
    destruct (Ascii.eqb_spec c "013"%char); [done|].
    destruct (Ascii.eqb_spec c "'"%char) as [->|?]; [done|].
    destruct (Ascii.eqb_spec c "["%char) as [->|?]; [done|].
    destruct (Ascii.eqb_spec c "]"%char) as [->|?]; [done|].
    destruct (Ascii.eqb_spec c "|"%char) as [->|?]; [done|].
    rewrite bool_decide_eq_false_2; [done|].
    intros Hin.
    repeat (apply elem_of_cons in Hin as [->|Hin]; [done|]).
    by apply elem_of_nil in Hin.
Qed.

Lemma well_escaped_plain c s :
  StdString.mem c reserved_chars = false →
  well_escaped (String c s) = well_escaped s.
Proof.
  intros Hc. cbn [well_escaped]. rewrite Hc.
  destruct (Ascii.eqb_spec c "|"%char) as [->|]; done.
Qed.

Lemma well_escaped_pair d s :
  StdString.mem d escape_codes = true →
  well_escaped (String "|"%char (String d s)) = well_escaped s.
Proof. intros Hd. cbn [well_escaped]. by rewrite Hd. Qed.

Lemma reserved_escape_code c :
  c ≠ "010"%char → c ≠ "013"%char →
  StdString.mem c reserved_chars = true → StdString.mem c escape_codes = true.
Proof.
  intros H1 H2. unfold reserved_chars, escape_codes. cbn [StdString.mem].
  destruct (Ascii.eqb_spec c "010"%char); [done|].
  destruct (Ascii.eqb_spec c "013"%char); [done|].
  repeat case_match; done.
Qed.

Lemma well_escaped_escape_spec s : well_escaped (escape_spec s) = true.
Proof.
  induction s as [|c s IH]; [done|].
  change (escape_spec (String c s)) with (escape_char c +:+ escape_spec s).
  destruct (escape_char_cases c) as [[_ ->]|[[_ ->]|[(?&?&Hc&->)|[Hc ->]]]];
    cbn [String.append].
  - by rewrite well_escaped_pair.
  - by rewrite well_escaped_pair.
  - by rewrite well_escaped_pair by by apply reserved_escape_code.
  - by rewrite well_escaped_plain.
Qed.

Lemma count_lines_append s t :
  count_lines (s +:+ t) = count_lines s + count_lines t.
Proof. induction s as [|c s IH]; simpl; [done|]. rewrite IH. lia. Qed.

Lemma count_lines_escape_spec s : count_lines (escape_spec s) = 0.
Proof.
  induction s as [|c s IH]; [done|].
  change (escape_spec (String c s)) with (escape_char c +:+ escape_spec s).
  rewrite count_lines_append, IH.
  destruct (escape_char_cases c) as [[_ ->]|[[_ ->]|[(H1&?&_&->)|[Hc ->]]]];
    try done; cbn [count_lines].
  - destruct (Ascii.eqb_spec c "010"%char); done.
  - destruct (Ascii.eqb_spec c "010"%char) as [->|]; done.
Qed.

(** C2: in the result of [serviceMessageEscape] every quote, bracket, pipe,
    line feed and carriage return is part of a two-character escape
    sequence: read left to right, the result is made of characters outside
    the reserved set and of the sequences the marker starts. *)
Theorem serviceMessageEscape_well_escaped (s : string) :
  well_escaped (serviceMessageEscape s) = true
  ∧ count_lines (serviceMessageEscape s) = 0.
Proof.
  rewrite serviceMessageEscape_spec.
  auto using well_escaped_escape_spec, count_lines_escape_spec.
Qed.

Lemma count_reserved_append s t :
  count_reserved (s +:+ t) = count_reserved s + count_reserved t.
Proof. induction s as [|c s IH]; simpl; [done|]. rewrite IH. lia. Qed.

Lemma length_escape_spec s :
  String.length (escape_spec s) = String.length s + count_reserved s.
Proof.
  induction s as [|c s IH]; [done|].
  change (escape_spec (String c s)) with (escape_char c +:+ escape_spec s).
  rewrite length_append, IH. cbn [String.length count_reserved].
  destruct (escape_char_cases c) as [[-> ->]|[[-> ->]|[(_&_&Hc&->)|[Hc ->]]]];
    rewrite ?Hc; simpl; lia.
Qed.

Lemma count_reserved_escape_spec s :
  count_reserved s ≤ count_reserved (escape_spec s).
Proof.
  induction s as [|c s IH]; [done|].
  change (escape_spec (String c s)) with (escape_char c +:+ escape_spec s).
  rewrite count_reserved_append. cbn [count_reserved].
  destruct (escape_char_cases c) as [[-> ->]|[[-> ->]|[(_&_&Hc&->)|[Hc ->]]]];
    cbn [count_reserved]; rewrite ?Hc; simpl; lia.
Qed.

Lemma count_reserved_get s i c :
  String.get i s = Some c → StdString.mem c reserved_chars = true →
  0 < count_reserved s.
Proof.
  revert i. induction s as [|d s IH]; intros i; [done|].
  destruct i as [|i]; cbn [String.get count_reserved].
  - intros [= ->] ->. lia.
  - intros Hget Hc. specialize (IH _ Hget Hc). lia.
Qed.

(** C9: [serviceMessageEscape] is a function of its argument alone, and it
    is not idempotent: on a string that holds a reserved character the
    second application makes the text longer again, the pipe written by the
    first one being escaped in turn; the one-quote string is an instance. *)
Theorem serviceMessageEscape_not_idempotent
    (s : string) (i : nat) (c : ascii)
    (Hget : String.get i s = Some c)
    (Hreserved : StdString.mem c reserved_chars = true) :
  serviceMessageEscape (serviceMessageEscape s) ≠ serviceMessageEscape s
  ∧ String.length (serviceMessageEscape s)
    < String.length (serviceMessageEscape (serviceMessageEscape s))
  ∧ serviceMessageEscape "'" = "|'"
  ∧ serviceMessageEscape (serviceMessageEscape "'") = "|||'".
Proof.
  assert (String.length (serviceMessageEscape s)
          < String.length (serviceMessageEscape (serviceMessageEscape s))) as Hlt.
  { rewrite !serviceMessageEscape_spec, (length_escape_spec (escape_spec s)).
    pose proof (count_reserved_escape_spec s).
    pose proof (count_reserved_get s i c Hget Hreserved). lia. }
  split_and!; [|done|reflexivity|reflexivity].
  intros Heq. rewrite Heq in Hlt. lia.
Qed.

Lemma serviceMessageEscape_not_idempotent_witness :
  String.get 1 "a[b" = Some "["%char
  ∧ serviceMessageEscape (serviceMessageEscape "a[b") ≠ serviceMessageEscape "a[b".
Proof.
  split; [reflexivity|].
  apply (serviceMessageEscape_not_idempotent "a[b" 1 "["%char); reflexivity.
Defined.

(** ** Properties of the formatter *)

Lemma foldl_put_attribute ss items :
  foldl put_attribute ss items = ss +:+ flatten (attribute_text <$> items).
Proof.
  revert ss. induction items as [|value items IH]; intros ss; simpl.
  - by rewrite append_nil_r.
  - rewrite IH. unfold put_attribute, attribute_text. by rewrite append_assoc.
Qed.

Lemma formatServiceMessage_map_items messageName values :
  formatServiceMessage_map messageName values =
  "##teamcity[" +:+ messageName
    +:+ flatten (attribute_text <$> map_items values) +:+ "]".
Proof.
  unfold formatServiceMessage_map. rewrite foldl_put_attribute.
  by rewrite !append_assoc.
Qed.

Lemma last_char_append_cons s c t :
  last_char (s +:+ String c t) = last_char (String c t).
Proof.
  induction s as [|d s IH]; [done|].
  change (String d s +:+ String c t) with (String d (s +:+ String c t)).
  cbn [last_char]. rewrite IH.
  destruct s; reflexivity.
Qed.

(** C6: the single-value overload gives [##teamcity[], the name, a space,
    the escaped value between quotes and [']'], and nothing after it, for
    every name and value: the empty value and a value of reserved
    characters only are instances. *)
Theorem formatServiceMessage_single (messageName value : string) :
  formatServiceMessage messageName value =
    "##teamcity[" +:+ messageName +:+ " '" +:+ escape_spec value +:+ "']"
  ∧ last_char (formatServiceMessage messageName value) = Some "]"%char
  ∧ formatServiceMessage messageName "" =
      "##teamcity[" +:+ messageName +:+ " '']"
  ∧ formatServiceMessage messageName "'[]|" =
      "##teamcity[" +:+ messageName +:+ " '|'|[|]||']"
  ∧ formatServiceMessage "message" "hi" = "##teamcity[message 'hi']".
Proof.
  unfold formatServiceMessage. rewrite !serviceMessageEscape_spec.
  split_and!; try reflexivity.
  rewrite <- !append_assoc. apply last_char_append_cons.
Qed.

#[global] Instance key_le_trans : Transitive key_le.
Proof. intros a b c. unfold key_le. apply transitivity. Qed.

#[global] Instance key_le_total : Total key_le.
Proof. intros a b. unfold key_le. apply total, _. Qed.

Lemma string_le_ne_ltb (s t : string) :
  String.le s t → s ≠ t → String.ltb s t = true.
Proof.
  unfold String.le, String.leb, String.ltb. intros Hle Hne.
  destruct (String.compare s t) eqn:E; [|done|done].
  by apply String.compare_eq_iff in E.
Qed.

Lemma map_items_Permutation (values : gmap string string) :
  map_items values ≡ₚ map_to_list values.
Proof. apply merge_sort_Permutation. Qed.

Lemma elem_of_map_items (values : gmap string string) k v :
  (k, v) ∈ map_items values ↔ values !! k = Some v.
Proof. rewrite map_items_Permutation. apply elem_of_map_to_list. Qed.

Lemma length_map_items (values : gmap string string) :
  length (map_items values) = size values.
Proof. rewrite map_items_Permutation. apply length_map_to_list. Qed.

Lemma NoDup_fst_map_items (values : gmap string string) :
  NoDup (map_items values).*1.
Proof. rewrite map_items_Permutation. apply NoDup_fst_map_to_list. Qed.

Lemma StronglySorted_strict (items : list (string * string)) :
  StronglySorted key_le items → NoDup items.*1 → StronglySorted key_lt items.
Proof.
  induction 1 as [|a items Hs IH Hall]; intros Hnd; [constructor|].
  rewrite fmap_cons in Hnd. apply NoDup_cons in Hnd as [Hnotin Hnd].
  constructor; [by apply IH|].
  apply Forall_forall. intros b Hb.
  apply string_le_ne_ltb.
  - by eapply Forall_forall in Hall.
  - intros Heq. apply Hnotin. rewrite Heq. by apply list_elem_of_fmap_2.
Qed.

Lemma map_items_sorted (values : gmap string string) :
  StronglySorted key_lt (map_items values).
Proof.
  apply StronglySorted_strict.
  - apply StronglySorted_merge_sort; apply _.
  - apply NoDup_fst_map_items.
Qed.

Lemma map_items_singleton k v : map_items {[k := v]} = [(k, v)].
Proof. unfold map_items. by rewrite map_to_list_singleton. Qed.

Lemma last_char_formatServiceMessage_map messageName values :
  last_char (formatServiceMessage_map messageName values) = Some "]"%char.
Proof.
  rewrite formatServiceMessage_map_items, <- !append_assoc.
  apply last_char_append_cons.
Qed.

(** C5: the map overload gives [##teamcity[], the name, then for each entry
    of the map a space, the key, [='], the escaped value and a quote, then
    [']'] and nothing after it.  The entries come in strictly increasing
    lexicographic order of their keys, each entry of the map once, so the
    text depends on the mapping alone and not on the order of insertion. *)
Theorem formatServiceMessage_map_ordered
    (messageName : string) (values : gmap string string) :
  formatServiceMessage_map messageName values =
    "##teamcity[" +:+ messageName
      +:+ flatten (attribute_text <$> map_items values) +:+ "]"
  ∧ StronglySorted key_lt (map_items values)
  ∧ (∀ k v, (k, v) ∈ map_items values ↔ values !! k = Some v)
  ∧ length (map_items values) = size values
  ∧ last_char (formatServiceMessage_map messageName values) = Some "]"%char
  ∧ (∀ k1 v1 k2 v2, k1 ≠ k2 →
       formatServiceMessage_map messageName (<[k1 := v1]> (<[k2 := v2]> values))
       = formatServiceMessage_map messageName (<[k2 := v2]> (<[k1 := v1]> values)))
  ∧ formatServiceMessage_map "inspection"
      (<["typeId" := "nullPointer"]> (<["SEVERITY" := "ERROR"]> ∅))
    = "##teamcity[inspection SEVERITY='ERROR' typeId='nullPointer']".
Proof.
  split_and!.
  - apply formatServiceMessage_map_items.
  - apply map_items_sorted.
  - apply elem_of_map_items.
  - apply length_map_items.
  - apply last_char_formatServiceMessage_map.
  - intros k1 v1 k2 v2 Hne. by rewrite insert_insert_ne.
  - vm_compute. reflexivity.
Qed.

Lemma formatServiceMessage_map_ordered_witness :
  "typeId" ≠ "SEVERITY"
  ∧ formatServiceMessage_map "inspection"
      (<["typeId" := "nullPointer"]> (<["SEVERITY" := "ERROR"]> ∅))
    = formatServiceMessage_map "inspection"
      (<["SEVERITY" := "ERROR"]> (<["typeId" := "nullPointer"]> ∅)).
Proof.
  split; [done|].
  apply (formatServiceMessage_map_ordered "inspection" ∅); done.
Defined.

(** C10: both overloads write the message name as it is, the map overload
    writes each key as it is, and only the values go through
    [serviceMessageEscape]; an entry whose value is empty is written as the
    key followed by [=''], no entry of the map being left out. *)
Theorem formatServiceMessage_verbatim
    (messageName key value : string) (values : gmap string string) :
  formatServiceMessage_map messageName {[key := value]} =
    "##teamcity[" +:+ messageName +:+ " " +:+ key
      +:+ "='" +:+ serviceMessageEscape value +:+ "']"
  ∧ formatServiceMessage messageName value =
    "##teamcity[" +:+ messageName +:+ " '" +:+ serviceMessageEscape value +:+ "']"
  ∧ formatServiceMessage_map messageName {[key := ""]} =
    "##teamcity[" +:+ messageName +:+ " " +:+ key +:+ "='']"
  ∧ formatServiceMessage_map messageName values =
    "##teamcity[" +:+ messageName
      +:+ flatten (attribute_text <$> map_items values) +:+ "]"
  ∧ length (attribute_text <$> map_items values) = size values
  ∧ (values !! key = Some "" →
     " " +:+ key +:+ "=''" ∈ attribute_text <$> map_items values)
  ∧ formatServiceMessage_map "a|b" (<["k[" := ""]> (<["n'" := "x]"]> ∅))
    = "##teamcity[a|b k[='' n'='x|]']"
  ∧ formatServiceMessage "a|b" "" = "##teamcity[a|b '']".
Proof.
  split_and!.
  - rewrite formatServiceMessage_map_items, map_items_singleton.
    unfold attribute_text. str_norm. reflexivity.
  - reflexivity.
  - rewrite formatServiceMessage_map_items, map_items_singleton.
    unfold attribute_text. str_norm. reflexivity.
  - apply formatServiceMessage_map_items.
  - rewrite length_fmap. apply length_map_items.
  - intros Hk. apply elem_of_map_items in Hk.
    apply (list_elem_of_fmap_2 attribute_text) in Hk. apply Hk.
  - vm_compute. reflexivity.
  - reflexivity.
Qed.

Lemma formatServiceMessage_verbatim_witness :
  ({[ "cwe" := "" ]} : gmap string string) !! "cwe" = Some ""
  ∧ " cwe=''" ∈ attribute_text <$> map_items {[ "cwe" := "" ]}.
Proof.
  split; [done|].
  apply (formatServiceMessage_verbatim "inspection" "cwe" "" {[ "cwe" := "" ]}).
  done.
Defined.

(** ** Properties of the sink *)

Lemma count_lines_formatServiceMessage messageName value :
  count_lines (formatServiceMessage messageName value) = count_lines messageName.
Proof.
  unfold formatServiceMessage.
  rewrite !count_lines_append, serviceMessageEscape_spec, count_lines_escape_spec.
  simpl. lia.
Qed.

Lemma count_lines_attributes (items : list (string * string)) :
  Forall (λ value, count_lines value.1 = 0) items →
  count_lines (flatten (attribute_text <$> items)) = 0.
Proof.
  induction 1 as [|value items Hk _ IH]; [done|].
  rewrite fmap_cons. unfold flatten in *. cbn [foldr].
  rewrite count_lines_append, IH. unfold attribute_text.
  rewrite !count_lines_append, serviceMessageEscape_spec, count_lines_escape_spec, Hk.
  done.
Qed.

Lemma count_lines_formatServiceMessage_map messageName (values : gmap string string) :
  count_lines messageName = 0 →
  (∀ k v, values !! k = Some v → count_lines k = 0) →
  count_lines (formatServiceMessage_map messageName values) = 0.
Proof.
  intros Hname Hkeys. rewrite formatServiceMessage_map_items.
  rewrite !count_lines_append, Hname, count_lines_attributes; [done|].
  apply Forall_forall. intros [k v] Hin. apply elem_of_map_items in Hin. eauto.
Qed.

Lemma subscript_lookup key (values : gmap string string) v :
  values !! key = Some v → subscript key values = (v, values).
Proof. unfold subscript. by intros ->. Qed.

Lemma subscript_insert key v (values : gmap string string) :
  subscript key (<[key := v]> values) = (v, <[key := v]> values).
Proof. apply subscript_lookup, lookup_insert_eq. Qed.

Lemma to_string_decimal z :
  Z.of_int <$> NilZero.int_of_string (to_string z) = Some z.
Proof.
  unfold to_string. rewrite NilZero.isi.
  - simpl. by rewrite DecimalZ.of_to.
  - destruct z; simpl; [done| |done].
    intros [= H]. by apply DecimalPos.Unsigned.to_uint_nonnil in H.
  - destruct z; simpl; [done|done|].
    intros [= H]. by apply DecimalPos.Unsigned.to_uint_nonnil in H.
Qed.

Section ReportingProperties.

Variable lib : LibFunctions.

Lemma reportErr_file_spec settings (values : gmap string string) file :
  values !! "file" = Some file →
  reportErr_file lib settings values =
  <["file" := file_attribute lib settings file]> values.
Proof.
  intros Hfile. unfold reportErr_file, file_attribute.
  rewrite (subscript_lookup _ _ _ Hfile).
  destruct (StdString.empty file); [done|].
  rewrite (subscript_lookup _ _ _ Hfile), subscript_insert.
  destruct (isAbsolute lib (fromNativeSeparators lib file));
    rewrite !subscript_insert, !insert_insert_eq; done.
Qed.

Lemma reportErr_attributes_file settings msg :
  reportErr_attributes settings msg !! "file" = Some (chosen_file msg).
Proof.
  unfold reportErr_attributes, chosen_file.
  destruct (_callStack msg), (_cwe_id msg =? 0)%Z, (_inconclusive msg);
    by simplify_map_eq.
Qed.

Lemma reportErr_attributes_keys settings msg k v :
  reportErr_attributes settings msg !! k = Some v → k ∈ location_keys.
Proof.
  unfold reportErr_attributes, location_keys.
  destruct (_callStack msg), (_cwe_id msg =? 0)%Z, (_inconclusive msg);
    intros Hk;
    repeat (apply lookup_insert_Some in Hk as [[<- _]|[_ Hk]];
            [by repeat constructor|]);
    by rewrite lookup_empty in Hk.
Qed.

Lemma reportErr_located_keys settings msg k v :
  reportErr_file lib settings (reportErr_attributes settings msg) !! k = Some v →
  k ∈ location_keys.
Proof.
  rewrite (reportErr_file_spec _ _ _ (reportErr_attributes_file settings msg)).
  intros [[<- _]|[_ Hk]]%lookup_insert_Some.
  - unfold location_keys. by repeat constructor.
  - by eapply reportErr_attributes_keys.
Qed.

Lemma reportErr_values_keys settings msg k v :
  reportErr_values lib settings msg !! k = Some v → k ∈ "SEVERITY" :: location_keys.
Proof.
  unfold reportErr_values, reportErr_severity.
  destruct (_severity msg); intros Hk;
    try (apply lookup_insert_Some in Hk as [[<- _]|[_ Hk]]; [by constructor|]);
    constructor; by eapply reportErr_located_keys.
Qed.

Lemma count_lines_inspection settings msg :
  count_lines (formatServiceMessage_map "inspection" (reportErr_values lib settings msg)) = 0.
Proof.
  apply count_lines_formatServiceMessage_map; [done|].
  intros k v Hk%reportErr_values_keys.
  assert (Forall (λ k, count_lines k = 0) ("SEVERITY" :: location_keys)) as Hall
    by (by repeat constructor).
  by eapply Forall_forall in Hall.
Qed.

Lemma reportErr_seen msg self output :
  serialize lib msg ∈ _errorList self → reportErr lib msg self output = (self, output).
Proof.
  intros Hin. unfold reportErr, set_insert.
  rewrite bool_decide_eq_false_2 by auto. simpl.
  rewrite subseteq_union_1_L by by apply singleton_subseteq_l.
  by destruct self.
Qed.

Lemma reportErr_unseen msg self output :
  serialize lib msg ∉ _errorList self →
  reportErr lib msg self output =
  ({| _settings := _settings self;
      _latestProgressFile := _latestProgressFile self;
      _latestProgressStage := _latestProgressStage self;
      _errorList := {[serialize lib msg]} ∪ _errorList self |},
   output +:+ formatServiceMessage_map "inspection"
                (reportErr_values lib (_settings self) msg) +:+ newline).
Proof.
  intros Hin. unfold reportErr, set_insert.
  by rewrite bool_decide_eq_true_2.
Qed.

Lemma reportErr_errorList msg self output :
  _errorList (reportErr lib msg self output).1 = {[serialize lib msg]} ∪ _errorList self.
Proof.
  destruct (decide (serialize lib msg ∈ _errorList self)) as [Hin|Hin].
  - rewrite reportErr_seen by done. simpl.
    symmetry. by apply subseteq_union_1_L, singleton_subseteq_l.
  - by rewrite reportErr_unseen.
Qed.

Lemma reportErr_all_app msgs1 msgs2 self output :
  reportErr_all lib (msgs1 ++ msgs2) self output =
  reportErr_all lib msgs2 (reportErr_all lib msgs1 self output).1
                      (reportErr_all lib msgs1 self output).2.
Proof.
  revert self output. induction msgs1 as [|msg msgs1 IH]; intros self output.
  - done.
  - simpl. destruct (reportErr lib msg self output) as [self' output']. apply IH.
Qed.

Lemma reportErr_all_errorList msgs self output :
  _errorList self ⊆ _errorList (reportErr_all lib msgs self output).1.
Proof.
  revert self output. induction msgs as [|msg msgs IH]; intros self output.
  - done.
  - simpl. pose proof (reportErr_errorList msg self output) as Hmsg.
    destruct (reportErr lib msg self output) as [self' output']. simpl in Hmsg.
    etrans; [|apply IH]. rewrite Hmsg. apply union_subseteq_r.
Qed.

Lemma reportErr_all_seen earlier msg later self output :
  serialize lib msg ∈ _errorList (reportErr_all lib (earlier ++ msg :: later) self output).1.
Proof.
  rewrite reportErr_all_app. simpl.
  pose proof (reportErr_errorList msg
    (reportErr_all lib earlier self output).1 (reportErr_all lib earlier self output).2) as Hmsg.
  destruct (reportErr lib msg _ _) as [self' output']. simpl in Hmsg.
  apply (reportErr_all_errorList later self' output').
  rewrite Hmsg. apply elem_of_union_l. by apply elem_of_singleton.
Qed.

Lemma reportErr_all_state msgs self output :
  _settings (reportErr_all lib msgs self output).1 = _settings self
  ∧ _errorList (reportErr_all lib msgs self output).1
    = list_to_set (serialize lib <$> msgs) ∪ _errorList self.
Proof.
  revert self output. induction msgs as [|msg msgs IH]; intros self output.
  - split; [done|]. simpl. by rewrite union_empty_l_L.
  - simpl. pose proof (reportErr_errorList msg self output) as Hmsg.
    assert (_settings (reportErr lib msg self output).1 = _settings self) as Hset
      by (unfold reportErr, set_insert; by case_match).
    destruct (reportErr lib msg self output) as [self' output']. simpl in *.
    destruct (IH self' output') as [-> ->]. split; [done|].
    rewrite Hmsg. apply set_eq. intros x. rewrite !elem_of_union. tauto.
Qed.

(** C3: a [reportErr] call whose serialization is in [_errorList] leaves
    the sink and the stream as they are.  In a run of calls on one sink, a
    call after one with the same serialization writes nothing, whatever
    came before and between, and a call whose serialization is new to the
    sink and to the calls before it writes its inspection line.  So the
    same message reported twice in a row writes one line, on a new sink and
    on every sink that has not seen it. *)
Theorem reportErr_suppresses_duplicates
    (msg : ErrorMessage) (self : TeamCityOutput) (output : string) :
  (serialize lib msg ∈ _errorList self → reportErr lib msg self output = (self, output))
  ∧ (∀ earlier first later, serialize lib first = serialize lib msg →
       reportErr lib msg
         (reportErr_all lib (earlier ++ first :: later) self output).1
         (reportErr_all lib (earlier ++ first :: later) self output).2
       = reportErr_all lib (earlier ++ first :: later) self output)
  ∧ (∀ earlier output',
       serialize lib msg ∉ _errorList self →
       (∀ other, other ∈ earlier → serialize lib other ≠ serialize lib msg) →
       (reportErr lib msg (reportErr_all lib earlier self output).1 output').2
       = output' +:+ formatServiceMessage_map "inspection"
                       (reportErr_values lib (_settings self) msg) +:+ newline)
  ∧ count_lines (formatServiceMessage_map "inspection"
                   (reportErr_values lib (_settings self) msg)) = 0
  ∧ (serialize lib msg ∉ _errorList self →
       (reportErr_all lib [msg; msg] self output).2
       = output +:+ formatServiceMessage_map "inspection"
                      (reportErr_values lib (_settings self) msg) +:+ newline)
  ∧ (∀ settings,
       (reportErr_all lib [msg; msg] (TeamCityOutput_new settings) output).2
       = output +:+ formatServiceMessage_map "inspection"
                      (reportErr_values lib settings msg) +:+ newline).
Proof.
  assert (∀ self', serialize lib msg ∉ _errorList self' →
            (reportErr_all lib [msg; msg] self' output).2
            = output +:+ formatServiceMessage_map "inspection"
                           (reportErr_values lib (_settings self') msg) +:+ newline)
    as Htwice.
  { intros self' Hnew. simpl.
    rewrite (reportErr_unseen _ _ _ Hnew).
    rewrite reportErr_seen; [done|].
    simpl. apply elem_of_union_l. by apply elem_of_singleton. }
  split_and!.
  - apply reportErr_seen.
  - intros earlier first later Heq.
    rewrite reportErr_seen; [by destruct (reportErr_all _ _ _)|].
    rewrite <- Heq. apply reportErr_all_seen.
  - intros earlier output' Hnew Hother.
    destruct (reportErr_all_state earlier self output) as [Hset Hlist].
    rewrite reportErr_unseen; [by rewrite Hset|].
    rewrite Hlist. intros [Hin|Hin]%elem_of_union; [|done].
    apply elem_of_list_to_set, list_elem_of_fmap in Hin as (other & Heq & Hin).
    by apply (Hother other).
  - apply count_lines_inspection.
  - apply Htwice.
  - intros settings. apply (Htwice (TeamCityOutput_new settings)).
    simpl. apply not_elem_of_empty.
Qed.

Lemma reportErr_located_lookup settings msg k :
  k ≠ "file" →
  reportErr_file lib settings (reportErr_attributes settings msg) !! k
  = reportErr_attributes settings msg !! k.
Proof.
  intros Hk.
  rewrite (reportErr_file_spec _ _ _ (reportErr_attributes_file settings msg)).
  by rewrite lookup_insert_ne.
Qed.

Lemma reportErr_severity_lookup sev (values : gmap string string) k :
  k ≠ "SEVERITY" → reportErr_severity sev values !! k = values !! k.
Proof.
  intros Hk. unfold reportErr_severity.
  destruct sev; by rewrite ?lookup_insert_ne.
Qed.

(** C7: the inspection line of a message not reported before is made from
    the map [reportErr_values], whose [SEVERITY] entry is [ERROR] for
    error, [WARNING] for warning, [INFO] for information, debug and style,
    [WEAK WARNING] for performance and portability, and is absent for none
    and for a value that is no enumerator; the call returns in each case. *)
Theorem reportErr_severity_attribute
    (msg : ErrorMessage) (self : TeamCityOutput) (output : string)
    (Hnew : serialize lib msg ∉ _errorList self) :
  (reportErr lib msg self output).2
  = output +:+ formatServiceMessage_map "inspection"
                 (reportErr_values lib (_settings self) msg) +:+ newline
  ∧ reportErr_values lib (_settings self) msg !! "SEVERITY"
    = match _severity msg with
      | Severity.error => Some "ERROR"
      | Severity.warning => Some "WARNING"
      | Severity.information | Severity.debug | Severity.style => Some "INFO"
      | Severity.performance | Severity.portability => Some "WEAK WARNING"
      | Severity.none | Severity.unrecognized _ => None
      end.
Proof.
  split; [by rewrite reportErr_unseen|].
  assert (reportErr_file lib (_settings self)
            (reportErr_attributes (_settings self) msg) !! "SEVERITY" = None) as Hnone.
  { apply eq_None_not_Some. intros [v Hv].
    apply reportErr_located_keys in Hv. unfold location_keys in Hv.
    repeat (apply elem_of_cons in Hv as [Hv|Hv]; [done|]).
    by apply elem_of_nil in Hv. }
  unfold reportErr_values, reportErr_severity.
  destruct (_severity msg); by rewrite ?lookup_insert_eq.
Qed.

(** C8: in the inspection line of a message not reported before, the
    [file] entry is made from the file of the first call stack entry, or
    from [file0] when the call stack is empty: an empty file gives
    [<cppcheck>] and nothing else is done to it; any other file has its
    separators converted, is made relative to the base paths when the
    converted path is absolute, and gets [./] in front.  [line] and
    [column] are the decimal numerals of the first call stack entry, and
    are absent when the call stack is empty. *)
Theorem reportErr_file_attribute
    (msg : ErrorMessage) (self : TeamCityOutput) (output : string)
    (Hnew : serialize lib msg ∉ _errorList self) :
  let settings := _settings self in
  let values := reportErr_values lib settings msg in
  let file := match _callStack msg with
              | [] => file0 msg
              | stackEntry :: _ => getfile stackEntry
              end in
  (reportErr lib msg self output).2
  = output +:+ formatServiceMessage_map "inspection" values +:+ newline
  ∧ values !! "file"
    = Some (if StdString.empty file then "<cppcheck>"
            else
              let path := fromNativeSeparators lib file in
              "./" +:+ (if isAbsolute lib path
                        then getRelativePath lib path (basePaths settings)
                        else path))
  ∧ values !! "line"
    = match _callStack msg with
      | [] => None
      | stackEntry :: _ => Some (to_string (line stackEntry))
      end
  ∧ values !! "column"
    = match _callStack msg with
      | [] => None
      | stackEntry :: _ => Some (to_string (col stackEntry))
      end
  ∧ (∀ z, Z.of_int <$> NilZero.int_of_string (to_string z) = Some z).
Proof.
  intros settings values file. subst values.
  split_and!.
  - by rewrite reportErr_unseen.
  - unfold reportErr_values. rewrite reportErr_severity_lookup by done.
    rewrite (reportErr_file_spec _ _ _ (reportErr_attributes_file settings msg)).
    rewrite lookup_insert_eq. unfold file_attribute.
    fold file. change (chosen_file msg) with file.
    by destruct (StdString.empty file), (isAbsolute lib (fromNativeSeparators lib file)).
  - unfold reportErr_values. rewrite reportErr_severity_lookup by done.
    rewrite reportErr_located_lookup by done.
    unfold reportErr_attributes.
    destruct (_callStack msg), (_cwe_id msg =? 0)%Z, (_inconclusive msg);
      by simplify_map_eq.
  - unfold reportErr_values. rewrite reportErr_severity_lookup by done.
    rewrite reportErr_located_lookup by done.
    unfold reportErr_attributes.
    destruct (_callStack msg), (_cwe_id msg =? 0)%Z, (_inconclusive msg);
      by simplify_map_eq.
  - apply to_string_decimal.
Qed.

End ReportingProperties.

Example sample_inspection :
  reportErr_all sample_lib [sample_message; sample_message]
    (TeamCityOutput_new sample_settings) ""
  = ({| _settings := sample_settings;
        _latestProgressFile := "";
        _latestProgressStage := "";
        _errorList := {[ serialize sample_lib sample_message ]} ∪ ∅ |},
     "##teamcity[inspection SEVERITY='ERROR' column='5' cwe='476' file='./src/a.cpp' line='12' message='Null pointer dereference' typeId='nullPointer']"
       +:+ newline).
Proof.
  cbn [reportErr_all].
  rewrite reportErr_unseen by (simpl; apply not_elem_of_empty).
  rewrite reportErr_seen by (simpl; apply elem_of_union_l; by apply elem_of_singleton).
  vm_compute. reflexivity.
Qed.

Lemma reportErr_suppresses_duplicates_witness :
  (serialize sample_lib sample_message
     ∉ _errorList (TeamCityOutput_new sample_settings))
  ∧ (reportErr_all sample_lib [sample_message; sample_message]
       (TeamCityOutput_new sample_settings) "").2
    = "" +:+ formatServiceMessage_map "inspection"
               (reportErr_values sample_lib sample_settings sample_message)
         +:+ newline.
Proof.
  assert (serialize sample_lib sample_message
            ∉ _errorList (TeamCityOutput_new sample_settings)) as Hnew
    by (simpl; apply not_elem_of_empty).
  split; [exact Hnew|].
  destruct (reportErr_suppresses_duplicates sample_lib sample_message
              (TeamCityOutput_new sample_settings) "")
    as (_ & _ & _ & _ & Htwice & _).
  exact (Htwice Hnew).
Defined.

Lemma reportErr_severity_attribute_witness :
  (serialize sample_lib sample_message
     ∉ _errorList (TeamCityOutput_new sample_settings))
  ∧ reportErr_values sample_lib sample_settings sample_message !! "SEVERITY"
    = Some "ERROR".
Proof.
  assert (serialize sample_lib sample_message
            ∉ _errorList (TeamCityOutput_new sample_settings)) as Hnew
    by (simpl; apply not_elem_of_empty).
  split; [exact Hnew|].
  apply (reportErr_severity_attribute sample_lib sample_message
           (TeamCityOutput_new sample_settings) "" Hnew).
Defined.

Lemma reportErr_file_attribute_witness :
  (serialize sample_lib sample_message
     ∉ _errorList (TeamCityOutput_new sample_settings))
  ∧ reportErr_values sample_lib sample_settings sample_message !! "file"
    = Some "./src/a.cpp".
Proof.
  assert (serialize sample_lib sample_message
            ∉ _errorList (TeamCityOutput_new sample_settings)) as Hnew
    by (simpl; apply not_elem_of_empty).
  split; [exact Hnew|].
  apply (reportErr_file_attribute sample_lib sample_message
           (TeamCityOutput_new sample_settings) "" Hnew).
Defined.

Lemma reportProgress_same filename stage value self output :
  latestProgress self = (filename, stage) →
  reportProgress filename stage value self output = (self, output).
Proof.
  unfold latestProgress, reportProgress. intros [= -> ->].
  by rewrite !String.eqb_refl.
Qed.

Lemma reportProgress_new filename stage value self output :
  latestProgress self ≠ (filename, stage) →
  reportProgress filename stage value self output =
  ({| _settings := _settings self;
      _latestProgressFile := filename;
      _latestProgressStage := stage;
      _errorList := _errorList self |},
   output +:+ progress_line filename stage +:+ newline).
Proof.
  unfold latestProgress, reportProgress. intros Hne.
  destruct (String.eqb_spec (_latestProgressFile self) filename) as [Hf|Hf];
    [|done].
  destruct (String.eqb_spec (_latestProgressStage self) stage) as [Hs|Hs];
    [|done].
  destruct Hne. by rewrite Hf, Hs.
Qed.

Lemma reportProgress_latest filename stage value self output :
  latestProgress (reportProgress filename stage value self output).1
  = (filename, stage).
Proof.
  destruct (decide (latestProgress self = (filename, stage))) as [Heq|Hne].
  - by rewrite reportProgress_same.
  - by rewrite reportProgress_new.
Qed.

(** C4, as the code has it: [reportProgress] compares its file and stage
    with the pair the sink remembers, which is the pair of the last call and
    the pair of two empty strings in a new sink, and never looks at [value].
    When the pairs are equal the call changes nothing; otherwise the sink
    remembers the new pair and one line, the [progressMessage] of
    [inspecting '<file>' stage: <stage>], is written.  So the second of two
    calls with one pair in a row writes nothing, and a call that differs in
    file or stage from the one before writes its line. *)
Theorem reportProgress_suppression
    (filename stage : string) (value : N)
    (self : TeamCityOutput) (output : string) :
  (latestProgress self = (filename, stage) →
     reportProgress filename stage value self output = (self, output))
  ∧ (latestProgress self ≠ (filename, stage) →
     reportProgress filename stage value self output =
     ({| _settings := _settings self;
         _latestProgressFile := filename;
         _latestProgressStage := stage;
         _errorList := _errorList self |},
      output +:+ formatServiceMessage "progressMessage"
                   ("inspecting '" +:+ filename +:+ "' stage: " +:+ stage)
             +:+ newline))
  ∧ count_lines (formatServiceMessage "progressMessage"
                   ("inspecting '" +:+ filename +:+ "' stage: " +:+ stage)) = 0
  ∧ (∀ value', reportProgress filename stage value' self output
               = reportProgress filename stage value self output)
  ∧ latestProgress (reportProgress filename stage value self output).1
    = (filename, stage)
  ∧ (∀ settings, latestProgress (TeamCityOutput_new settings) = ("", ""))
  ∧ (∀ value',
       reportProgress_all [(filename, stage, value); (filename, stage, value')]
         self output
       = reportProgress filename stage value self output)
  ∧ (latestProgress self ≠ (filename, stage) → ∀ value',
       (reportProgress_all [(filename, stage, value); (filename, stage, value')]
          self output).2
       = output +:+ progress_line filename stage +:+ newline)
  ∧ (∀ filename' stage' value' output',
       (filename', stage') ≠ (filename, stage) →
       (reportProgress filename' stage' value'
          (reportProgress filename stage value self output).1 output').2
       = output' +:+ progress_line filename' stage' +:+ newline).
Proof.
  split_and!.
  - apply reportProgress_same.
  - apply reportProgress_new.
  - apply count_lines_formatServiceMessage.
  - done.
  - apply reportProgress_latest.
  - done.
  - intros value'. cbn [reportProgress_all].
    pose proof (reportProgress_latest filename stage value self output) as Hl.
    destruct (reportProgress filename stage value self output) as [self' output'].
    by rewrite reportProgress_same.
  - intros Hne value'. cbn [reportProgress_all].
    rewrite (reportProgress_new _ _ _ _ _ Hne).
    by rewrite reportProgress_same.
  - intros filename' stage' value' output' Hne.
    rewrite reportProgress_new; [done|].
    by rewrite reportProgress_latest.
Qed.

Lemma reportProgress_suppression_witness :
  latestProgress (TeamCityOutput_new sample_settings) ≠ ("a.cpp", "parse")
  ∧ (reportProgress_all [("a.cpp", "parse", 0%N); ("a.cpp", "parse", 1%N)]
       (TeamCityOutput_new sample_settings) "").2
    = "##teamcity[progressMessage 'inspecting |'a.cpp|' stage: parse']" +:+ newline.
Proof.
  split; [done|].
  apply (reportProgress_suppression "a.cpp" "parse" 0%N
           (TeamCityOutput_new sample_settings) "").
  done.
Defined.

(** A new sink has reported nothing, and yet a first call with an empty
    file and an empty stage writes nothing: the pair it carries equals the
    pair of empty strings the sink starts with.  Twice in a row, this pair
    gives no line at all. *)
Lemma reportProgress_empty_pair_counterexample :
  reportProgress "" "" 0%N (TeamCityOutput_new sample_settings) ""
  = (TeamCityOutput_new sample_settings, "")
  ∧ (reportProgress "" "" 0%N (TeamCityOutput_new sample_settings) "").2
    ≠ formatServiceMessage "progressMessage" "inspecting '' stage: " +:+ newline
  ∧ (reportProgress_all [("", "", 0%N); ("", "", 0%N)]
       (TeamCityOutput_new sample_settings) "").2 = ""
  ∧ count_lines (reportProgress_all [("", "", 0%N); ("", "", 0%N)]
                   (TeamCityOutput_new sample_settings) "").2 ≠ 1.
Proof. split_and!; done. Qed.


(** * Further properties *)

(** ** The escaper *)

Lemma escape_spec_append s t :
  escape_spec (s +:+ t) = escape_spec s +:+ escape_spec t.
Proof.
  induction s as [|c s IH]; [done|].
  change (String c s +:+ t) with (String c (s +:+ t)).
  change (escape_spec (String c (s +:+ t)))
    with (escape_char c +:+ escape_spec (s +:+ t)).
  change (escape_spec (String c s)) with (escape_char c +:+ escape_spec s).
  by rewrite IH, append_assoc.
Qed.

Lemma unescape_escape_spec s : unescape (escape_spec s) = s.
Proof.
  induction s as [|c s IH]; [done|].
  change (escape_spec (String c s)) with (escape_char c +:+ escape_spec s).
  destruct (escape_char_cases c) as [[-> ->]|[[-> ->]|[(H1&H2&Hc&->)|[Hc ->]]]];
    cbn [String.append unescape].
  - by rewrite IH.
  - by rewrite IH.
  - rewrite IH. change (Ascii.eqb "|" "|") with true. cbn iota.
    destruct (Ascii.eqb_spec c "n"%char) as [->|]; [done|].
    destruct (Ascii.eqb_spec c "r"%char) as [->|]; done.
  - rewrite IH. destruct (Ascii.eqb_spec c "|"%char) as [->|]; done.
Qed.

Lemma count_reserved_le_length s : count_reserved s ≤ String.length s.
Proof.
  induction s as [|c s IH]; cbn [count_reserved String.length]; [done|].
  destruct (StdString.mem c reserved_chars); lia.
Qed.

Lemma escape_spec_unreserved s : count_reserved s = 0 → escape_spec s = s.
Proof.
  induction s as [|c s IH]; [done|]. cbn [count_reserved]. intros Hc.
  change (escape_spec (String c s)) with (escape_char c +:+ escape_spec s).
  destruct (StdString.mem c reserved_chars) eqn:Hmem; [lia|].
  rewrite IH by lia.
  destruct (escape_char_cases c) as [[-> _]|[[-> _]|[(_&_&Hc'&_)|[_ ->]]]];
    [done|done|congruence|done].
Qed.

(** X1: escaping a concatenation gives the concatenation of the escaped
    parts: no escape sequence depends on the neighbouring characters. *)
Theorem serviceMessageEscape_append (s t : string) :
  serviceMessageEscape (s +:+ t)
  = serviceMessageEscape s +:+ serviceMessageEscape t.
Proof. rewrite !serviceMessageEscape_spec. apply escape_spec_append. Qed.

(** X2: two different strings never have the same escaped form, and
    [unescape] reads the string back from it. *)
Theorem serviceMessageEscape_injective (s t : string) :
  (serviceMessageEscape s = serviceMessageEscape t → s = t)
  ∧ unescape (serviceMessageEscape s) = s.
Proof.
  split.
  - rewrite !serviceMessageEscape_spec. intros Heq.
    by rewrite <- (unescape_escape_spec s), <- (unescape_escape_spec t), Heq.
  - rewrite serviceMessageEscape_spec. apply unescape_escape_spec.
Qed.

Lemma serviceMessageEscape_injective_witness :
  serviceMessageEscape "a|b" = serviceMessageEscape "a|b" ∧ "a|b" = "a|b".
Proof.
  split; [reflexivity|].
  exact (proj1 (serviceMessageEscape_injective "a|b" "a|b") eq_refl).
Defined.

(** X3: the escaped form is longer than the string by the number of its
    reserved characters, so it has at least the length of the string and
    at most twice that length. *)
Theorem serviceMessageEscape_length (s : string) :
  String.length (serviceMessageEscape s) = String.length s + count_reserved s
  ∧ String.length s ≤ String.length (serviceMessageEscape s) ≤ 2 * String.length s.
Proof.
  rewrite serviceMessageEscape_spec, length_escape_spec.
  pose proof (count_reserved_le_length s). lia.
Qed.

(** X4: the strings [serviceMessageEscape] returns unchanged are exactly
    those without a reserved character. *)
Theorem serviceMessageEscape_fixed_point (s : string) :
  serviceMessageEscape s = s ↔ count_reserved s = 0.
Proof.
  rewrite serviceMessageEscape_spec. split.
  - intros Heq. pose proof (length_escape_spec s) as Hlen.
    rewrite Heq in Hlen. lia.
  - apply escape_spec_unreserved.
Qed.

(** ** The formatter *)

Lemma append_inj_r s t u : s +:+ u = t +:+ u → s = t.
Proof.
  revert t. induction s as [|c s IH]; intros [|d t] Heq; simpl in Heq.
  - done.
  - apply (f_equal String.length) in Heq. simpl in Heq.
    rewrite length_append in Heq. lia.
  - apply (f_equal String.length) in Heq. simpl in Heq.
    rewrite length_append in Heq. lia.
  - injection Heq as -> Heq. f_equal. by apply IH.
Qed.

Lemma string_ltb_asym (s t : string) :
  String.ltb s t = true → String.ltb t s = true → False.
Proof.
  unfold String.ltb. rewrite (String.compare_antisym s t).
  by destruct (String.compare t s).
Qed.

Lemma map_items_pair k1 v1 k2 v2 :
  String.ltb k1 k2 = true →
  map_items (<[k1 := v1]> {[k2 := v2]}) = [(k1, v1); (k2, v2)].
Proof.
  intros Hlt.
  assert (k1 ≠ k2) as Hne.
  { intros ->. by apply (string_ltb_asym k2 k2). }
  pose proof (map_items_sorted (<[k1 := v1]> {[k2 := v2]})) as Hsorted.
  pose proof (map_items_Permutation (<[k1 := v1]> {[k2 := v2]})) as Hperm.
  rewrite map_to_list_insert, map_to_list_singleton in Hperm
    by by rewrite lookup_singleton_ne.
  symmetry in Hperm. apply Permutation_length_2_inv in Hperm as [Heq|Heq];
    [done|].
  rewrite Heq in Hsorted.
  apply StronglySorted_inv in Hsorted as [_ Hall].
  apply Forall_cons in Hall as [Hgt _]. unfold key_lt in Hgt. simpl in Hgt.
  destruct (string_ltb_asym _ _ Hlt Hgt).
Qed.

(** X5: for a fixed message name the single-value overload gives different
    texts for different values, and the value adds no line feed to the
    text: the message is one line whenever the name is. *)
Theorem formatServiceMessage_value_injective (messageName value1 value2 : string) :
  (formatServiceMessage messageName value1 = formatServiceMessage messageName value2 →
   value1 = value2)
  ∧ count_lines (formatServiceMessage messageName value1) = count_lines messageName.
Proof.
  split; [|apply count_lines_formatServiceMessage].
  unfold formatServiceMessage. intros Heq.
  do 3 apply String.app_inj in Heq.
  apply append_inj_r in Heq.
  by apply serviceMessageEscape_injective in Heq.
Qed.

Lemma formatServiceMessage_value_injective_witness :
  formatServiceMessage "message" "hi" = formatServiceMessage "message" "hi"
  ∧ "hi" = "hi".
Proof.
  split; [reflexivity|].
  exact (proj1 (formatServiceMessage_value_injective "message" "hi" "hi") eq_refl).
Defined.

(** X6: the text of the map overload holds no line feed when neither the
    message name nor a key of the map holds one, whatever the values are. *)
Theorem formatServiceMessage_map_one_line
    (messageName : string) (values : gmap string string)
    (Hname : count_lines messageName = 0)
    (Hkeys : ∀ k v, values !! k = Some v → count_lines k = 0) :
  count_lines (formatServiceMessage_map messageName values) = 0.
Proof. by apply count_lines_formatServiceMessage_map. Qed.

Lemma formatServiceMessage_map_one_line_witness :
  count_lines (formatServiceMessage_map "message" {[ "text" := newline ]}) = 0.
Proof.
  apply formatServiceMessage_map_one_line; [reflexivity|].
  intros k v [<- _]%lookup_singleton_Some. reflexivity.
Defined.

(** X7: the map overload does not keep maps apart.  Keys are written as
    they are, so a map of two entries and the map of one entry whose key
    spells out the first entry and the second key give the same text. *)
Theorem formatServiceMessage_map_collision
    (messageName k1 v1 k2 v2 : string)
    (Hlt : String.ltb k1 k2 = true) :
  formatServiceMessage_map messageName (<[k1 := v1]> {[k2 := v2]})
  = formatServiceMessage_map messageName
      {[ k1 +:+ "='" +:+ serviceMessageEscape v1 +:+ "' " +:+ k2 := v2 ]}
  ∧ (<[k1 := v1]> {[k2 := v2]} : gmap string string)
    ≠ {[ k1 +:+ "='" +:+ serviceMessageEscape v1 +:+ "' " +:+ k2 := v2 ]}.
Proof.
  split.
  - rewrite !formatServiceMessage_map_items, map_items_pair, map_items_singleton
      by done.
    unfold attribute_text, flatten. cbn [fmap list_fmap foldr fst snd].
    str_norm. reflexivity.
  - intros Heq. apply (f_equal (λ m : gmap string string, m !! k1)) in Heq.
    rewrite lookup_insert_eq in Heq. symmetry in Heq.
    apply lookup_singleton_Some in Heq as [Heq _].
    apply (f_equal String.length) in Heq. rewrite !length_append in Heq.
    simpl in Heq. lia.
Qed.

Lemma formatServiceMessage_map_collision_witness :
  formatServiceMessage_map "inspection" (<["a" := "x"]> {["b" := "y"]})
  = formatServiceMessage_map "inspection" {[ "a='x' b" := "y" ]}.
Proof.
  exact (proj1 (formatServiceMessage_map_collision "inspection" "a" "x" "b" "y"
                  eq_refl)).
Defined.

(** ** The sink *)

(** X8: [reportOut] leaves the sink as it is and writes one line, the
    [message] with the escaped text as its [text] attribute, whatever the
    text is: a text of several lines still gives one line. *)
Theorem reportOut_one_line (outmsg : string) (self : TeamCityOutput) (output : string) :
  reportOut outmsg self output
  = (self, output +:+ "##teamcity[message text='"
             +:+ serviceMessageEscape outmsg +:+ "']" +:+ newline)
  ∧ count_lines (reportOut outmsg self output).2 = S (count_lines output).
Proof.
  assert (formatServiceMessage_map "message" {[ "text" := outmsg ]}
          = "##teamcity[message text='" +:+ serviceMessageEscape outmsg +:+ "']")
    as Hline.
  { rewrite formatServiceMessage_map_items, map_items_singleton.
    unfold attribute_text, flatten. cbn [fmap list_fmap foldr fst snd].
    str_norm. reflexivity. }
  unfold reportOut. rewrite Hline. split; [by str_norm|].
  cbn [snd]. rewrite !count_lines_append, serviceMessageEscape_spec,
    count_lines_escape_spec. simpl. lia.
Qed.

(** X9: the line of a progress report that is not suppressed: the quotes
    the sink puts around the file name are escaped, and so are the file
    name and the stage; it is one line whatever they contain. *)
Theorem reportProgress_line
    (filename stage : string) (value : N) (self : TeamCityOutput) (output : string)
    (Hnew : latestProgress self ≠ (filename, stage)) :
  (reportProgress filename stage value self output).2
  = output +:+ "##teamcity[progressMessage 'inspecting |'"
      +:+ serviceMessageEscape filename +:+ "|' stage: "
      +:+ serviceMessageEscape stage +:+ "']" +:+ newline
  ∧ count_lines (reportProgress filename stage value self output).2
    = S (count_lines output).
Proof.
  rewrite reportProgress_new by done. cbn [snd]. split.
  - unfold progress_line, formatServiceMessage.
    rewrite !serviceMessageEscape_append. str_norm.
    change (serviceMessageEscape "inspecting '") with "inspecting |'".
    change (serviceMessageEscape "' stage: ") with "|' stage: ".
    str_norm. reflexivity.
  - unfold progress_line.
    rewrite !count_lines_append, count_lines_formatServiceMessage. simpl. lia.
Qed.

Lemma reportProgress_line_witness :
  latestProgress (TeamCityOutput_new sample_settings) ≠ ("a'b.cpp", "parse")
  ∧ (reportProgress "a'b.cpp" "parse" 7%N (TeamCityOutput_new sample_settings) "").2
    = "" +:+ "##teamcity[progressMessage 'inspecting |'"
        +:+ serviceMessageEscape "a'b.cpp" +:+ "|' stage: "
        +:+ serviceMessageEscape "parse" +:+ "']" +:+ newline.
Proof.
  split; [done|].
  exact (proj1 (reportProgress_line "a'b.cpp" "parse" 7%N
                  (TeamCityOutput_new sample_settings) "" ltac:(done))).
Defined.

Lemma reportProgress_all_same filename stage calls self output :
  latestProgress self = (filename, stage) →
  Forall (λ call, call.1 = (filename, stage)) calls →
  reportProgress_all calls self output = (self, output).
Proof.
  intros Hlatest Hall. induction Hall as [|[[f s] v] calls Hcall _ IH]; [done|].
  simpl in Hcall. injection Hcall as -> ->.
  cbn [reportProgress_all]. by rewrite reportProgress_same.
Qed.

(** X10: a progress report repeated any number of times, whatever the
    values passed with it, has the effect of the first report alone. *)
Theorem reportProgress_repeated
    (filename stage : string) (value : N) (calls : list (string * string * N))
    (self : TeamCityOutput) (output : string)
    (Hsame : Forall (λ call, call.1 = (filename, stage)) calls) :
  reportProgress_all ((filename, stage, value) :: calls) self output
  = reportProgress filename stage value self output.
Proof.
  cbn [reportProgress_all].
  pose proof (reportProgress_latest filename stage value self output) as Hlatest.
  destruct (reportProgress filename stage value self output) as [self' output'].
  by apply (reportProgress_all_same filename stage).
Qed.

Lemma reportProgress_repeated_witness :
  Forall (λ call : string * string * N, call.1 = ("a.cpp", "parse"))
    [("a.cpp", "parse", 1%N); ("a.cpp", "parse", 2%N)]
  ∧ reportProgress_all
      [("a.cpp", "parse", 0%N); ("a.cpp", "parse", 1%N); ("a.cpp", "parse", 2%N)]
      (TeamCityOutput_new sample_settings) ""
    = reportProgress "a.cpp" "parse" 0%N (TeamCityOutput_new sample_settings) "".
Proof.
  assert (Forall (λ call : string * string * N, call.1 = ("a.cpp", "parse"))
            [("a.cpp", "parse", 1%N); ("a.cpp", "parse", 2%N)]) as Hsame
    by (by repeat constructor).
  split; [exact Hsame|].
  exact (reportProgress_repeated "a.cpp" "parse" 0%N _
           (TeamCityOutput_new sample_settings) "" Hsame).
Defined.

(** X11: the sink remembers one progress pair only: a report that comes
    back after a different one is written again, so two pairs that take
    turns give a line at every call. *)
Theorem reportProgress_alternating
    (file1 stage1 file2 stage2 : string) (value1 value2 value3 : N)
    (self : TeamCityOutput) (output : string)
    (Hdiff : (file1, stage1) ≠ (file2, stage2))
    (Hnew : latestProgress self ≠ (file1, stage1)) :
  (reportProgress_all
     [(file1, stage1, value1); (file2, stage2, value2); (file1, stage1, value3)]
     self output).2
  = output +:+ progress_line file1 stage1 +:+ newline
      +:+ progress_line file2 stage2 +:+ newline
      +:+ progress_line file1 stage1 +:+ newline.
Proof.
  cbn [reportProgress_all].
  rewrite (reportProgress_new file1 stage1) by done.
  rewrite (reportProgress_new file2 stage2) by (unfold latestProgress; simpl; done).
  rewrite (reportProgress_new file1 stage1)
    by (unfold latestProgress; simpl; congruence).
  cbn [snd]. by str_norm.
Qed.

Lemma reportProgress_alternating_witness :
  ("a.cpp", "parse") ≠ ("b.cpp", "parse")
  ∧ latestProgress (TeamCityOutput_new sample_settings) ≠ ("a.cpp", "parse")
  ∧ count_lines
      (reportProgress_all
         [("a.cpp", "parse", 0%N); ("b.cpp", "parse", 0%N); ("a.cpp", "parse", 0%N)]
         (TeamCityOutput_new sample_settings) "").2 = 3.
Proof.
  split_and!; [done|done|].
  rewrite (reportProgress_alternating "a.cpp" "parse" "b.cpp" "parse" 0%N 0%N 0%N
             (TeamCityOutput_new sample_settings) "" ltac:(done) ltac:(done)).
  reflexivity.
Defined.

Section MoreReportingProperties.

Variable lib : LibFunctions.

(** X12: the attributes of an inspection, in the order they are written:
    [SEVERITY] when the severity has one, [column] when there is a call
    stack, [cwe] when the weakness code is not zero, [file],
    [inconclusive] when the flag is set, [line] when there is a call stack,
    then [message] (the verbose or the short one, as the settings say) and
    [typeId]; there is no other attribute. *)
Theorem reportErr_values_items (settings : Settings) (msg : ErrorMessage) :
  map_items (reportErr_values lib settings msg)
  = match _severity msg with
    | Severity.error => [("SEVERITY", "ERROR")]
    | Severity.warning => [("SEVERITY", "WARNING")]
    | Severity.information | Severity.debug | Severity.style =>
        [("SEVERITY", "INFO")]
    | Severity.performance | Severity.portability =>
        [("SEVERITY", "WEAK WARNING")]
    | Severity.none | Severity.unrecognized _ => []
    end
    ++ match _callStack msg with
       | [] => []
       | stackEntry :: _ => [("column", to_string (col stackEntry))]
       end
    ++ (if (_cwe_id msg =? 0)%Z then [] else [("cwe", to_string (_cwe_id msg))])
    ++ [("file", file_attribute lib settings (chosen_file msg))]
    ++ (if _inconclusive msg then [("inconclusive", "true")] else [])
    ++ match _callStack msg with
       | [] => []
       | stackEntry :: _ => [("line", to_string (line stackEntry))]
       end
    ++ [("message", if verbose settings then verboseMessage msg
                    else shortMessage msg);
        ("typeId", _id msg)].
Proof.
  unfold reportErr_values.
  rewrite (reportErr_file_spec _ _ _ _ (reportErr_attributes_file settings msg)).
  unfold reportErr_attributes, reportErr_severity, chosen_file.
  destruct (_severity msg), (_callStack msg), (_cwe_id msg =? 0)%Z,
    (_inconclusive msg); vm_compute; reflexivity.
Qed.

(** X13: every inspection has a [file] attribute and it is never empty:
    it is [<cppcheck>] or starts with [./]. *)
Theorem reportErr_file_not_empty (settings : Settings) (msg : ErrorMessage) :
  ∃ file, reportErr_values lib settings msg !! "file" = Some file
          ∧ StdString.empty file = false
          ∧ (file = "<cppcheck>" ∨ String.prefix "./" file = true).
Proof.
  exists (file_attribute lib settings (chosen_file msg)). split_and!.
  - unfold reportErr_values. rewrite reportErr_severity_lookup by done.
    rewrite (reportErr_file_spec _ _ _ _ (reportErr_attributes_file settings msg)).
    apply lookup_insert_eq.
  - unfold file_attribute. by destruct (StdString.empty (chosen_file msg)).
  - unfold file_attribute. destruct (StdString.empty (chosen_file msg)); [by left|].
    right. assert (∀ path, String.prefix "./" ("./" +:+ path) = true) as Hprefix
      by (by intros []).
    apply Hprefix.
Qed.

Lemma size_difference_seen (x : string) (S E : gset string) :
  x ∈ E → ({[x]} ∪ S) ∖ E = S ∖ E.
Proof.
  intros Hin. apply set_eq. intros y.
  rewrite !elem_of_difference, elem_of_union, elem_of_singleton.
  split; [|tauto]. intros [[->|?] ?]; tauto.
Qed.

Lemma size_difference_fresh (x : string) (S E : gset string) :
  x ∉ E → size (({[x]} ∪ S) ∖ E) = 1 + size (S ∖ ({[x]} ∪ E)).
Proof.
  intros Hnew.
  replace (({[x]} ∪ S) ∖ E) with ({[x]} ∪ (S ∖ ({[x]} ∪ E))).
  - rewrite size_union, size_singleton; [done|].
    intros y. rewrite elem_of_singleton, elem_of_difference, elem_of_union,
      elem_of_singleton. tauto.
  - apply set_eq. intros y.
    rewrite !elem_of_union, !elem_of_difference, !elem_of_union,
      !elem_of_singleton.
    destruct (decide (y = x)) as [->|]; tauto.
Qed.

Lemma count_lines_reportErr_unseen msg self output :
  serialize lib msg ∉ _errorList self →
  count_lines (reportErr lib msg self output).2 = S (count_lines output).
Proof.
  intros Hnew. rewrite reportErr_unseen by done. cbn [snd].
  rewrite !count_lines_append, count_lines_inspection. simpl. lia.
Qed.

(** X14: a run of [reportErr] calls writes as many lines as there are
    different serializations among its messages that the sink had not
    seen before the run. *)
Theorem reportErr_all_lines
    (msgs : list ErrorMessage) (self : TeamCityOutput) (output : string) :
  count_lines (reportErr_all lib msgs self output).2
  = count_lines output
    + size (list_to_set (serialize lib <$> msgs) ∖ _errorList self).
Proof.
  revert self output. induction msgs as [|msg msgs IH]; intros self output.
  - simpl. rewrite difference_disjoint_L by apply disjoint_empty_l.
    rewrite size_empty. lia.
  - cbn [reportErr_all]. rewrite fmap_cons, list_to_set_cons.
    pose proof (reportErr_errorList lib msg self output) as Hlist.
    destruct (decide (serialize lib msg ∈ _errorList self)) as [Hin|Hnew].
    + rewrite reportErr_seen by done. rewrite IH.
      by rewrite size_difference_seen.
    + pose proof (count_lines_reportErr_unseen msg self output Hnew) as Hcount.
      destruct (reportErr lib msg self output) as [self' output'].
      cbn [fst snd] in *. rewrite IH, Hcount, Hlist.
      rewrite size_difference_fresh by done. lia.
Qed.

Lemma reportErr_keeps_progress msg self output :
  _settings (reportErr lib msg self output).1 = _settings self
  ∧ latestProgress (reportErr lib msg self output).1 = latestProgress self.
Proof. unfold reportErr, set_insert. by case_match. Qed.

Lemma reportProgress_keeps_errorList filename stage value self output :
  _settings (reportProgress filename stage value self output).1 = _settings self
  ∧ _errorList (reportProgress filename stage value self output).1
    = _errorList self.
Proof. unfold reportProgress. by case_match. Qed.

Lemma TeamCityOutput_run_invariant calls self output :
  _settings (TeamCityOutput_run lib calls self output).1 = _settings self
  ∧ _errorList (TeamCityOutput_run lib calls self output).1
    = list_to_set (reported lib calls) ∪ _errorList self
  ∧ latestProgress (TeamCityOutput_run lib calls self output).1
    = last_progress (latestProgress self) calls.
Proof.
  revert self output. induction calls as [|call calls IH]; intros self output.
  - split_and!; [done| |done]. simpl. by rewrite union_empty_l_L.
  - cbn [TeamCityOutput_run]. destruct call as [outmsg|msg|filename stage value];
      cbn [TeamCityOutput_call].
    + unfold reportOut. apply IH.
    + pose proof (reportErr_errorList lib msg self output) as Hlist.
      destruct (reportErr_keeps_progress msg self output) as [Hset Hlatest].
      destruct (reportErr lib msg self output) as [self' output'].
      cbn [fst] in *. destruct (IH self' output') as (-> & -> & ->).
      rewrite Hset, Hlist, Hlatest. split_and!; [done| |done].
      cbn [reported omap list_omap]. rewrite list_to_set_cons.
      apply set_eq. intros x. rewrite !elem_of_union. tauto.
    + pose proof (reportProgress_latest filename stage value self output) as Hlatest.
      destruct (reportProgress_keeps_errorList filename stage value self output)
        as [Hset Hlist].
      destruct (reportProgress filename stage value self output) as [self' output'].
      cbn [fst] in *. destruct (IH self' output') as (-> & -> & ->).
      by rewrite Hset, Hlist, Hlatest.
Qed.

(** X15: what a sink remembers after any run of calls: its settings are
    those it was made with, its set of serializations is the one it had
    together with those of all messages reported in the run, and its
    progress pair is the one of the last progress call, or the one it had
    when the run has none.  So [reportOut] and [reportProgress] never touch
    the set, and [reportOut] and [reportErr] never touch the pair. *)
Theorem TeamCityOutput_run_state
    (calls : list LoggerCall) (self : TeamCityOutput) (output : string) :
  _settings (TeamCityOutput_run lib calls self output).1 = _settings self
  ∧ _errorList (TeamCityOutput_run lib calls self output).1
    = list_to_set (reported lib calls) ∪ _errorList self
  ∧ latestProgress (TeamCityOutput_run lib calls self output).1
    = last_progress (latestProgress self) calls.
Proof. apply TeamCityOutput_run_invariant. Qed.

(** X16: once a message was reported in a run, a later message with the
    same serialization writes nothing and changes nothing, whatever calls
    of the three kinds came before and between. *)
Theorem TeamCityOutput_run_duplicate
    (before between : list LoggerCall) (first msg : ErrorMessage)
    (self : TeamCityOutput) (output output' : string)
    (Hsame : serialize lib first = serialize lib msg) :
  TeamCityOutput_call lib (CallReportErr msg)
    (TeamCityOutput_run lib (before ++ CallReportErr first :: between) self output).1
    output'
  = ((TeamCityOutput_run lib (before ++ CallReportErr first :: between) self output).1,
     output').
Proof.
  cbn [TeamCityOutput_call]. apply reportErr_seen.
  destruct (TeamCityOutput_run_invariant
              (before ++ CallReportErr first :: between) self output)
    as (_ & -> & _).
  apply elem_of_union_l, elem_of_list_to_set. unfold reported.
  apply list_elem_of_omap. exists (CallReportErr first). split; [|by rewrite Hsame].
  apply elem_of_app. right. constructor.
Qed.

(** X17: the two memories of the sink do not interfere: what [reportErr]
    writes is the same before and after a progress report, what
    [reportProgress] writes is the same before and after an error report,
    and the sink ends the same whichever of the two calls comes first. *)
Theorem reportErr_reportProgress_independent
    (msg : ErrorMessage) (filename stage : string) (value : N)
    (self : TeamCityOutput) (output1 output2 : string) :
  (reportErr lib msg (reportProgress filename stage value self output1).1 output2).2
  = (reportErr lib msg self output2).2
  ∧ (reportProgress filename stage value (reportErr lib msg self output1).1 output2).2
    = (reportProgress filename stage value self output2).2
  ∧ (reportErr lib msg (reportProgress filename stage value self output1).1 output2).1
    = (reportProgress filename stage value (reportErr lib msg self output1).1 output2).1.
Proof.
  unfold reportErr, reportProgress, set_insert.
  destruct (String.eqb (_latestProgressFile self) filename
            && String.eqb (_latestProgressStage self) stage) eqn:Hsame;
    destruct (bool_decide (serialize lib msg ∉ _errorList self)) eqn:Hnew;
    cbn; rewrite ?Hsame, ?Hnew; done.
Qed.

End MoreReportingProperties.

(** ** The catalog *)

Lemma map_items_inspectionType (id name description category : string) :
  map_items (list_to_map [("id", id); ("name", name);
                          ("description", description); ("category", category)])
  = [("category", category); ("description", description);
     ("id", id); ("name", name)].
Proof. vm_compute. reflexivity. Qed.

Lemma inspectionTypeLogger_reportErr_text registry verbose msg output :
  inspectionTypeLogger_reportErr registry verbose msg output
  = output +:+ "##teamcity[inspectionType category='cppcheck "
      +:+ serviceMessageEscape (Severity_toString registry (_severity msg))
      +:+ "' description='"
      +:+ serviceMessageEscape (if verbose then verboseMessage msg
                                else shortMessage msg)
      +:+ "' id='" +:+ serviceMessageEscape (_id msg)
      +:+ "' name='" +:+ serviceMessageEscape (_id msg) +:+ "']" +:+ newline.
Proof.
  unfold inspectionTypeLogger_reportErr.
  rewrite formatServiceMessage_map_items, map_items_inspectionType.
  unfold attribute_text, flatten. cbn [fmap list_fmap foldr fst snd].
  rewrite serviceMessageEscape_append.
  change (serviceMessageEscape "cppcheck ") with "cppcheck ".
  by str_norm.
Qed.

Lemma count_lines_inspectionTypeLogger_reportErr registry verbose msg output :
  count_lines (inspectionTypeLogger_reportErr registry verbose msg output)
  = S (count_lines output).
Proof.
  rewrite inspectionTypeLogger_reportErr_text.
  rewrite !count_lines_append, !serviceMessageEscape_spec, !count_lines_escape_spec.
  simpl. lia.
Qed.

(** X18: the line the catalog writes for a described message: the
    attributes [category], [description], [id] and [name] in this order,
    with the identity of the message as [id] and as [name], its verbose or
    short message as [description], and the category [cppcheck] followed
    by the name of the severity; it is one line. *)
Theorem inspectionTypeLogger_line
    (registry : Registry) (verbose : bool) (msg : ErrorMessage) (output : string) :
  inspectionTypeLogger_reportErr registry verbose msg output
  = output +:+ "##teamcity[inspectionType category='cppcheck "
      +:+ serviceMessageEscape (Severity_toString registry (_severity msg))
      +:+ "' description='"
      +:+ serviceMessageEscape (if verbose then verboseMessage msg
                                else shortMessage msg)
      +:+ "' id='" +:+ serviceMessageEscape (_id msg)
      +:+ "' name='" +:+ serviceMessageEscape (_id msg) +:+ "']" +:+ newline
  ∧ count_lines (inspectionTypeLogger_reportErr registry verbose msg output)
    = S (count_lines output).
Proof.
  split.
  - apply inspectionTypeLogger_reportErr_text.
  - apply count_lines_inspectionTypeLogger_reportErr.
Qed.

Lemma count_lines_inspectionTypeLogger registry verbose calls output :
  count_lines (foldl (inspectionTypeLogger_call registry verbose) output calls)
  = count_lines output + count_reportErr calls.
Proof.
  revert output. induction calls as [|call calls IH]; intros output; simpl.
  - lia.
  - rewrite IH. destruct call as [outmsg|msg|filename stage value]; simpl;
      [lia| |lia].
    rewrite count_lines_inspectionTypeLogger_reportErr. lia.
Qed.

(** X19: the catalog is the described messages one after the other, those
    of the checks in their order and then those of the preprocessor.  It
    does not use the set of seen serializations: every described message
    gives its line, also one described twice, and the other calls the
    describing functions make give nothing. *)
Theorem reportInspectionTypes_lines
    (registry : Registry) (self : TeamCityOutput) (output : string) :
  reportInspectionTypes registry self output
  = foldl (inspectionTypeLogger_call registry (verbose (_settings self))) output
      (concat ((λ getErrorMessages, getErrorMessages (_settings self))
                 <$> Check_instances registry)
       ++ Preprocessor_getErrorMessages registry (_settings self))
  ∧ count_lines (reportInspectionTypes registry self output)
    = count_lines output
      + count_reportErr
          (concat ((λ getErrorMessages, getErrorMessages (_settings self))
                     <$> Check_instances registry)
           ++ Preprocessor_getErrorMessages registry (_settings self)).
Proof.
  assert (reportInspectionTypes registry self output
          = foldl (inspectionTypeLogger_call registry (verbose (_settings self)))
              output
              (concat ((λ getErrorMessages, getErrorMessages (_settings self))
                         <$> Check_instances registry)
               ++ Preprocessor_getErrorMessages registry (_settings self)))
    as Hfold.
  { unfold reportInspectionTypes. rewrite foldl_app. f_equal.
    generalize output. induction (Check_instances registry) as [|check checks IH];
      intros output0; [done|].
    simpl. by rewrite foldl_app, IH. }
  split; [done|]. rewrite Hfold. apply count_lines_inspectionTypeLogger.
Qed.

(** ** Runs of calls *)

Lemma TeamCityOutput_run_duplicate_witness :
  serialize sample_lib
    {| _id := "nullPointer";
       shortMessage := "Null pointer dereference";
       verboseMessage := "Null pointer dereference: p";
       _callStack := [ {| getfile := "/proj/src/a.cpp"; line := 30; col := 1 |} ];
       file0 := "";
       _cwe_id := 0;
       _inconclusive := true;
       _severity := Severity.warning |}
  = serialize sample_lib sample_message
  ∧ TeamCityOutput_call sample_lib (CallReportErr sample_message)
      (TeamCityOutput_run sample_lib
         ([CallReportOut "start"]
          ++ CallReportErr
               {| _id := "nullPointer";
                  shortMessage := "Null pointer dereference";
                  verboseMessage := "Null pointer dereference: p";
                  _callStack :=
                    [ {| getfile := "/proj/src/a.cpp"; line := 30; col := 1 |} ];
                  file0 := "";
                  _cwe_id := 0;
                  _inconclusive := true;
                  _severity := Severity.warning |}
          :: [CallReportProgress "a.cpp" "parse" 0%N])
         (TeamCityOutput_new sample_settings) "").1
      "later"
    = ((TeamCityOutput_run sample_lib
          ([CallReportOut "start"]
           ++ CallReportErr
                {| _id := "nullPointer";
                   shortMessage := "Null pointer dereference";
                   verboseMessage := "Null pointer dereference: p";
                   _callStack :=
                     [ {| getfile := "/proj/src/a.cpp"; line := 30; col := 1 |} ];
                   file0 := "";
                   _cwe_id := 0;
                   _inconclusive := true;
                   _severity := Severity.warning |}
           :: [CallReportProgress "a.cpp" "parse" 0%N])
          (TeamCityOutput_new sample_settings) "").1,
       "later").
Proof.
  split; [reflexivity|].
  exact (TeamCityOutput_run_duplicate sample_lib [CallReportOut "start"]
           [CallReportProgress "a.cpp" "parse" 0%N] _ sample_message
           (TeamCityOutput_new sample_settings) "" "later" eq_refl).
Defined.

Lemma TeamCityOutput_call_appends lib call self output :
  TeamCityOutput_call lib call self output
  = ((TeamCityOutput_call lib call self "").1,
     output +:+ (TeamCityOutput_call lib call self "").2).
Proof.
  destruct call as [outmsg|msg|filename stage value]; cbn [TeamCityOutput_call].
  - done.
  - unfold reportErr, set_insert. case_match; cbn; by rewrite ?append_nil_r.
  - unfold reportProgress. case_match; cbn; by rewrite ?append_nil_r.
Qed.

(** X20: a run only appends to the stream: what it writes, and the sink it
    leaves, do not depend on what the stream held before. *)
Theorem TeamCityOutput_run_appends
    (lib : LibFunctions) (calls : list LoggerCall)
    (self : TeamCityOutput) (output : string) :
  TeamCityOutput_run lib calls self output
  = ((TeamCityOutput_run lib calls self "").1,
     output +:+ (TeamCityOutput_run lib calls self "").2).
Proof.
  revert self output. induction calls as [|call calls IH]; intros self output.
  - cbn. by rewrite append_nil_r.
  - cbn [TeamCityOutput_run].
    rewrite (TeamCityOutput_call_appends lib call self output).
    destruct (TeamCityOutput_call lib call self "") as [self' written].
    cbn [fst snd].
    rewrite (IH self' (output +:+ written)), (IH self' written).
    cbn [fst snd]. by rewrite append_assoc.
Qed.
